(** * StreamingJsonParser: a shallow embedding and its properties

    The program is the class [StreamingJsonParser] of [assignment.py]
    (the same hundred lines open [main.py]).  A parser object owns a text
    buffer, a result dictionary, a stack of [(dict, key)] frames, three
    flags and a string accumulator; [consume] appends a chunk to the
    buffer and runs [_parse], a character loop that mutates the
    dictionaries in place; [get] returns the result dictionary.

    Python dictionaries are mutable objects shared by reference: the
    frame stack and the parent dictionary both point at a nested
    dictionary.  The embedding therefore keeps a store of dictionaries
    addressed by handles, and frames and dictionary slots hold handles. *)

From Stdlib Require Import Ascii.
From stdpp Require Import base option list strings.

(** ** Data model *)

(** A reference to a dictionary object: its index in the store. *)
Abbreviation handle := nat (only parsing).

(** What the program stores in a dictionary slot: [self.current_string]
    (line 47, line 97) or the reference [new_obj] (line 63). *)
Inductive value :=
  | VStr (s : string)
  | VObj (h : handle).

#[global] Instance value_eq_dec : EqDecision value.
Proof. solve_decision. Defined.

(** A Python [dict] with [str] keys: insertion ordered, one entry per key. *)
Abbreviation dict := (list (string * value)) (only parsing).

(** [d[k] = v]: an existing key keeps its position and gets the new value,
    a new key goes to the end. *)
Fixpoint dict_set (k : string) (v : value) (d : dict) : dict :=
  match d with
  | [] => [(k, v)]
  | (k', v') :: d' =>
      if decide (k' = k) then (k, v) :: d' else (k', v') :: dict_set k v d'
  end.

(** [d.get(k)]; the program never reads a slot, the properties do. *)
Fixpoint dict_get (k : string) (d : dict) : option value :=
  match d with
  | [] => None
  | (k', v') :: d' => if decide (k' = k) then Some v' else dict_get k d'
  end.

(** The number of entries of [d] under the key [k]. *)
Definition dict_count (k : string) (d : dict) : nat :=
  length (filter (λ e, e.1 = k) d).

(** A stack frame, the tuple [(current_object, current_key)]; the key is
    [None] or a [str]. *)
Abbreviation frame := (handle * option string)%type (only parsing).

(** The attributes of a [StreamingJsonParser], and the store [heap] of the
    dictionaries it has created; [partial_json] and the frames refer to
    them by handle. *)
Record parser := Parser {
  heap : list (list (string * value));
  buffer : string;
  partial_json : handle;
  stack : list (handle * option string);
  in_string : bool;
  escape : bool;
  current_string : string;
  expecting_colon : bool
}.

#[global] Instance parser_eq_dec : EqDecision parser.
Proof. solve_decision. Defined.

(** Attribute assignment, [self.x = e]. *)
Definition set_heap (x : list (list (string * value))) (self : parser) : parser :=
  Parser x (buffer self) (partial_json self) (stack self) (in_string self)
         (escape self) (current_string self) (expecting_colon self).
Definition set_buffer (x : string) (self : parser) : parser :=
  Parser (heap self) x (partial_json self) (stack self) (in_string self)
         (escape self) (current_string self) (expecting_colon self).
Definition set_stack (x : list (handle * option string)) (self : parser) : parser :=
  Parser (heap self) (buffer self) (partial_json self) x (in_string self)
         (escape self) (current_string self) (expecting_colon self).
Definition set_in_string (x : bool) (self : parser) : parser :=
  Parser (heap self) (buffer self) (partial_json self) (stack self) x
         (escape self) (current_string self) (expecting_colon self).
Definition set_escape (x : bool) (self : parser) : parser :=
  Parser (heap self) (buffer self) (partial_json self) (stack self)
         (in_string self) x (current_string self) (expecting_colon self).
Definition set_current_string (x : string) (self : parser) : parser :=
  Parser (heap self) (buffer self) (partial_json self) (stack self)
         (in_string self) (escape self) x (expecting_colon self).
Definition set_expecting_colon (x : bool) (self : parser) : parser :=
  Parser (heap self) (buffer self) (partial_json self) (stack self)
         (in_string self) (escape self) (current_string self) x.

(** ** Operations on the store and on the stack *)

(** [obj[k] = v] for the dictionary behind the handle [obj].  A Python
    reference always points at a live object; [alter] leaves the store as
    it is for a handle outside it, and [wf] below shows that the program
    never holds one. *)
Definition store (obj : handle) (k : string) (v : value) (self : parser) : parser :=
  set_heap (alter (dict_set k v) obj (heap self)) self.

(** [self.stack[-1]]: the last element; [None] is Python's [IndexError]
    on an empty list. *)
Definition stack_top (self : parser) : option (handle * option string) :=
  last (stack self).

(** [self.stack[-1] = f], executed only after [self.stack[-1]] was read. *)
Definition set_stack_top (f : handle * option string) (self : parser) : parser :=
  set_stack (<[pred (length (stack self)) := f]> (stack self)) self.

(** [self.stack.append(f)] *)
Definition stack_append (f : handle * option string) (self : parser) : parser :=
  set_stack (stack self ++ [f]) self.

(** [self.stack.pop()], executed only under [len(self.stack) > 1]. *)
Definition stack_pop (self : parser) : parser :=
  set_stack (removelast (stack self)) self.

(** ** Characters *)

(** A Python [str] is a sequence of code points; the program compares a
    character with five ASCII characters, asks [isspace] of it, and
    otherwise copies or skips it.  Text is modelled with the 8-bit
    characters of [string]. *)

(** The double quote, code point 34. *)
Definition dquote : ascii := "034"%char.
Definition backslash : ascii := "\"%char.
Definition lbrace : ascii := "{"%char.
Definition rbrace : ascii := "}"%char.
Definition colon : ascii := ":"%char.
Definition comma : ascii := ","%char.

(** [char.isspace()] on the code points below 256: the whitespace and
    separator controls, the space, NEL and the no-break space. *)
Definition isspace (char : ascii) : bool :=
  let n := nat_of_ascii char in
  ((9 <=? n) && (n <=? 13)) || ((28 <=? n) && (n <=? 32))
  || (n =? 133) || (n =? 160).

(** [s += char] *)
Definition append_char (s : string) (char : ascii) : string :=
  s +:+ String char EmptyString.

(** ** The parser *)

(** [__init__]: the result dictionary is the first object of the store. *)
Definition init : parser :=
  {| heap := [[]];
     buffer := "";
     partial_json := 0;
     stack := [(0, None)];
     in_string := false;
     escape := false;
     current_string := "";
     expecting_colon := false |}.

(** The end of a string, lines 35 to 50. *)
Definition close_string (self : parser) : option parser :=
  let self := set_in_string false self in
  self ←
    (if expecting_colon self then
       '(current_obj, _) ← stack_top self;
       let self := set_stack_top (current_obj, Some (current_string self)) self in
       Some (set_expecting_colon false self)
     else
       '(current_obj, current_key) ← stack_top self;
       match current_key with
       | Some key =>
           let self := store current_obj key (VStr (current_string self)) self in
           Some (set_stack_top (current_obj, None) self)
       | None => Some self
       end);
  Some (set_current_string "" self).

(** The start of an object, lines 57 to 66.  The guard
    [len(self.stack) > 0 and self.stack[-1][1] is not None] is the match on
    the last frame. *)
Definition open_object (self : parser) : option parser :=
  match stack_top self with
  | Some (current_obj, Some current_key) =>
      let new_obj := length (heap self) in
      let self := set_heap (heap self ++ [[]]) self in
      let self := store current_obj current_key (VObj new_obj) self in
      let self := set_stack_top (current_obj, None) self in
      Some (stack_append (new_obj, None) self)
  | _ => Some self
  end.

(** The end of an object, lines 67 to 71. *)
Definition close_object (self : parser) : option parser :=
  if decide (1 < length (stack self)) then Some (stack_pop self) else Some self.

(** The start of a string, lines 72 to 78. *)
Definition open_string (self : parser) : option parser :=
  let self := set_in_string true self in
  '(_, current_key) ← stack_top self;
  match current_key with
  | None =>
      if negb (expecting_colon self) then Some (set_expecting_colon true self)
      else Some self
  | Some _ => Some self
  end.

(** One turn of the [while] loop, lines 25 to 90, for the character
    [char = self.buffer[i]].  Every branch ends in [i += 1]. *)
Definition step (char : ascii) (self : parser) : option parser :=
  if in_string self then
    if escape self then
      let self := set_current_string (append_char (current_string self) char) self in
      Some (set_escape false self)
    else if decide (char = backslash) then Some (set_escape true self)
    else if decide (char = dquote) then close_string self
    else Some (set_current_string (append_char (current_string self) char) self)
  else
    if decide (char = lbrace) then open_object self
    else if decide (char = rbrace) then close_object self
    else if decide (char = dquote) then open_string self
    else if decide (char = colon) then Some self
    else if decide (char = comma) then Some self
    else if isspace char then Some self
    else Some self.

(** The loop [while i < len(self.buffer)], run on the characters from
    index [i] on; [i] grows by one in every turn, so the loop is a
    recursion on what is left of the buffer. *)
Fixpoint scan (rest : string) (self : parser) : option parser :=
  match rest with
  | EmptyString => Some self
  | String char rest' => self' ← step char self; scan rest' self'
  end.

(** The partial string at the end, lines 92 to 97. *)
Definition expose (self : parser) : option parser :=
  if in_string self && negb (expecting_colon self) then
    '(current_obj, current_key) ← stack_top self;
    match current_key with
    | Some key => Some (store current_obj key (VStr (current_string self)) self)
    | None => Some self
    end
  else Some self.

Definition _parse (self : parser) : option parser :=
  self ← scan (buffer self) self;
  self ← expose self;
  Some (set_buffer "" self).

(** [consume] returns [self]: the parser after the call. *)
Definition consume (chunk : string) (self : parser) : option parser :=
  let self := set_buffer (buffer self +:+ chunk) self in
  _parse self.

(** ** Reading the result *)

(** The value a caller sees behind the reference that [get] returns:
    dictionaries nested in dictionaries with strings at the leaves. *)
#[warnings="-register-all"]
Inductive json :=
  | JStr (s : string)
  | JObj (fields : list (string * json)).

(** Follow the references of a value, at most [fuel] dictionaries deep. *)
Fixpoint read (fuel : nat) (hp : list (list (string * value))) (v : value) : option json :=
  match v with
  | VStr s => Some (JStr s)
  | VObj h =>
      match fuel with
      | 0 => None
      | S fuel' =>
          d ← hp !! h;
          fields ← mapM (λ e, v' ← read fuel' hp e.2; Some (e.1, v')) d;
          Some (JObj fields)
      end
  end.

(** [get]: the result dictionary, read in full.  No chain of references
    is longer than the store. *)
Definition get (self : parser) : option json :=
  read (length (heap self)) (heap self) (VObj (partial_json self)).

(** A fresh parser fed the chunks in turn. *)
Definition run (chunks : list string) : option parser :=
  foldl (λ p chunk, p ≫= consume chunk) (Some init) chunks.

(** Python source text for the examples: ['] stands for the double quote. *)
Fixpoint py (s : string) : string :=
  match s with
  | EmptyString => EmptyString
  | String c s' => String (if decide (c = "'"%char) then dquote else c) (py s')
  end.

(** ** The vocabulary of the properties *)

(** What a turn of the loop does, by cases, on a parser whose stack ends
    in the frame [(obj, key)]. *)
Inductive transition : parser → parser → Prop :=
  | t_escaped hp buf pj stk cur ec char :
      transition (Parser hp buf pj stk true true cur ec)
                 (Parser hp buf pj stk true false (append_char cur char) ec)
  | t_backslash hp buf pj stk cur ec :
      transition (Parser hp buf pj stk true false cur ec)
                 (Parser hp buf pj stk true true cur ec)
  | t_accumulate hp buf pj stk cur ec char :
      transition (Parser hp buf pj stk true false cur ec)
                 (Parser hp buf pj stk true false (append_char cur char) ec)
  | t_close_key hp buf pj fs obj key cur :
      transition (Parser hp buf pj (fs ++ [(obj, key)]) true false cur true)
                 (Parser hp buf pj (fs ++ [(obj, Some cur)]) false false "" false)
  | t_close_value hp buf pj fs obj k cur :
      transition (Parser hp buf pj (fs ++ [(obj, Some k)]) true false cur false)
                 (Parser (alter (dict_set k (VStr cur)) obj hp) buf pj
                         (fs ++ [(obj, None)]) false false "" false)
  | t_close_stray hp buf pj fs obj cur :
      transition (Parser hp buf pj (fs ++ [(obj, None)]) true false cur false)
                 (Parser hp buf pj (fs ++ [(obj, None)]) false false "" false)
  | t_open_object hp buf pj fs obj k esc cur ec :
      transition (Parser hp buf pj (fs ++ [(obj, Some k)]) false esc cur ec)
                 (Parser (alter (dict_set k (VObj (length hp))) obj (hp ++ [[]]))
                         buf pj (fs ++ [(obj, None); (length hp, None)])
                         false esc cur ec)
  | t_close_object hp buf pj fs f g esc cur ec :
      transition (Parser hp buf pj (fs ++ [f; g]) false esc cur ec)
                 (Parser hp buf pj (fs ++ [f]) false esc cur ec)
  | t_open_key hp buf pj fs obj esc cur ec :
      transition (Parser hp buf pj (fs ++ [(obj, None)]) false esc cur ec)
                 (Parser hp buf pj (fs ++ [(obj, None)]) true esc cur true)
  | t_open_value hp buf pj fs obj k esc cur ec :
      transition (Parser hp buf pj (fs ++ [(obj, Some k)]) false esc cur ec)
                 (Parser hp buf pj (fs ++ [(obj, Some k)]) true esc cur ec)
  | t_skip self :
      transition self self.

(** [exposed self1 self2]: [self1] is [self2], possibly after the
    end-of-call rule wrote some partial value into the slot of the value
    string in flight. *)
Definition exposed (self1 self2 : parser) : Prop :=
  self1 = self2 ∨
  (in_string self2 = true ∧ expecting_colon self2 = false ∧
   ∃ obj key s, stack_top self2 = Some (obj, Some key) ∧
                self1 = store obj key (VStr s) self2).

(** References point forward: a dictionary only holds handles of
    dictionaries created after it, all of them live. *)
Definition heap_ok (hp : list (list (string * value))) : Prop :=
  ∀ h d k h', hp !! h = Some d → (k, VObj h') ∈ d → h < h' < length hp.

(** No dictionary has two entries under one key. *)
Definition keys_ok (hp : list (list (string * value))) : Prop :=
  ∀ h d, hp !! h = Some d → NoDup d.*1.

(** A dictionary is the value of at most one slot. *)
Definition parent_ok (hp : list (list (string * value))) : Prop :=
  ∀ h1 d1 k1 h2 d2 k2 h',
    hp !! h1 = Some d1 → (k1, VObj h') ∈ d1 →
    hp !! h2 = Some d2 → (k2, VObj h') ∈ d2 → h1 = h2.

Definition heap_wf (hp : list (list (string * value))) : Prop :=
  heap_ok hp ∧ keys_ok hp ∧ parent_ok hp.

(** A value that may be stored in the dictionary [obj]: a string, or a
    live dictionary created after [obj] that no slot holds yet. *)
Definition value_ok (hp : list (list (string * value))) (obj : handle) (v : value) : Prop :=
  match v with
  | VStr _ => True
  | VObj n => (obj < n < length hp) ∧
              ∀ h d k, hp !! h = Some d → (k, VObj n) ∉ d
  end.

(** [rpath hp (h :: hs)]: from the result dictionary (handle 0) a chain
    of slots leads to [h] through the dictionaries [hs], nearest first. *)
Inductive rpath (hp : list (list (string * value))) : list handle → Prop :=
  | rpath_root : is_Some (hp !! 0) → rpath hp [0]
  | rpath_cons h h' hs d k :
      rpath hp (h :: hs) → hp !! h = Some d → dict_get k d = Some (VObj h') →
      rpath hp (h' :: h :: hs).

(** [nested hp root n h]: the dictionary [h] sits [n] levels below [root]. *)
Inductive nested (hp : list (list (string * value))) (root : handle) : nat → handle → Prop :=
  | nested_root : nested hp root 0 root
  | nested_child n h d k h' :
      nested hp root n h → hp !! h = Some d → dict_get k d = Some (VObj h') →
      nested hp root (S n) h'.

(** The invariant of the parser between two turns of the loop. *)
Record wf (self : parser) : Prop := {
  wf_root : partial_json self = 0;
  wf_path : rpath (heap self) (reverse (stack self).*1);
  wf_heap : heap_wf (heap self);
  wf_out : in_string self = false → expecting_colon self = false;
  wf_in : in_string self = true →
          ∃ obj key, stack_top self = Some (obj, key) ∧
                     (expecting_colon self = true ↔ key = None)
}.

(** What a chunk adds to a string that is being read, and the escape flag
    it leaves, when the chunk does not close the string; [None] when an
    unescaped double quote closes it. *)
Fixpoint string_body (esc : bool) (chunk : string) : option (string * bool) :=
  match chunk with
  | EmptyString => Some (EmptyString, esc)
  | String char rest =>
      if esc then '(s, e) ← string_body false rest; Some (String char s, e)
      else if decide (char = backslash) then string_body true rest
      else if decide (char = dquote) then None
      else '(s, e) ← string_body false rest; Some (String char s, e)
  end.

(** [n] closing braces in a row. *)
Fixpoint braces (n : nat) : string :=
  match n with
  | 0 => EmptyString
  | S n' => String rbrace (braces n')
  end.

(** The parser after the call [consume] of [{'foo': 'ba], the quotes
    being double quotes. *)
Definition parser_foo_ba : parser :=
  Parser [[("foo", VStr "ba")]] "" 0 [(0, Some "foo")] true false "ba" false.

(** The parser after the call [consume] of [{'fo], the quote being a
    double quote. *)
Definition parser_fo : parser :=
  Parser [[]] "" 0 [(0, None)] true false "fo" true.

(** The parser in the call [consume] of [{'outer': {], after the colon
    and the space. *)
Definition parser_outer : parser :=
  Parser [[]] "" 0 [(0, Some "outer")] false false "" false.

(** What an assignment [obj[key] = v] leaves in the dictionary [d] of a
    well-formed store: one entry under [key], holding [v], at the place of
    the earlier entry if there was one and at the end otherwise, the
    other keys as they were. *)
Definition overwritten (key : string) (v : value)
    (d d' : list (string * value)) : Prop :=
  dict_get key d' = Some v ∧ dict_count key d' = 1 ∧
  (∀ k, k ≠ key → dict_get k d' = dict_get k d) ∧
  d'.*1 = (if decide (key ∈ d.*1) then d.*1 else d.*1 ++ [key]).

(** The parser after the call [consume] of [{'a': 'x', 'a': 'y], the
    quotes being double quotes. *)
Definition parser_a_y : parser :=
  Parser [[("a", VStr "y")]] "" 0 [(0, Some "a")] true false "y" false.

(** A token made of characters other than the two braces and the double
    quote. *)
Fixpoint inert (token : string) : bool :=
  match token with
  | EmptyString => true
  | String char rest =>
      negb (bool_decide (char = lbrace)) && negb (bool_decide (char = rbrace))
      && negb (bool_decide (char = dquote)) && inert rest
  end.

(** The parser after the call [consume] of [{'k': ], the quotes being
    double quotes, and the parser after the array [['x']] that follows. *)
Definition parser_k : parser :=
  Parser [[]] "" 0 [(0, Some "k")] false false "" false.

Definition parser_k_x : parser :=
  Parser [[("k", VStr "x")]] "" 0 [(0, None)] false false "" false.

(** ** The vocabulary of the further properties *)

(** [''.join(chunks)] *)
Definition join (chunks : list string) : string :=
  foldr String.append EmptyString chunks.

(** The flags, the accumulator and the pending keys hang together: an
    escape is pending only inside a string, the accumulator is empty
    outside strings, and only the last frame can have a pending key. *)
Record tidy (self : parser) : Prop := {
  tidy_escape : escape self = true → in_string self = true;
  tidy_current : in_string self = false → current_string self = EmptyString;
  tidy_below : ∀ i f, stack self !! i = Some f → S i < length (stack self) →
                      f.2 = None
}.

(** [keys_grow hp hp']: every dictionary of [hp] is still in [hp'], under
    the same handle, with the same keys in the same order, possibly
    followed by new ones. *)
Definition keys_grow (hp hp' : list (list (string * value))) : Prop :=
  ∀ h d, hp !! h = Some d → ∃ d', hp' !! h = Some d' ∧ d.*1 `prefix_of` d'.*1.

(** The parser after the further chunk [r', 'x': '], the quotes being
    double quotes, on [parser_foo_ba]. *)
Definition parser_foo_bar_x : parser :=
  Parser [[("foo", VStr "bar"); ("x", VStr "")]] "" 0 [(0, Some "x")]
         true false "" false.

(** The text of a string as the parser wants it: a backslash before each
    double quote and each backslash, everything else as it is. *)
Fixpoint escape_text (s : string) : string :=
  match s with
  | EmptyString => EmptyString
  | String c rest =>
      if decide (c = dquote ∨ c = backslash)
      then String backslash (String c (escape_text rest))
      else String c (escape_text rest)
  end.

(** A string between double quotes. *)
Definition render_string (s : string) : string :=
  String dquote (escape_text s +:+ String dquote EmptyString).

(** Texts separated by a comma and a space. *)
Fixpoint join_fields (texts : list string) : string :=
  match texts with
  | [] => EmptyString
  | text :: texts' =>
      text +:+ match texts' with
               | [] => EmptyString
               | _ :: _ => ", " +:+ join_fields texts'
               end
  end.

(** The text of a tree of dictionaries and strings: the fields of a
    dictionary between braces, each a key, a colon, a space and a value,
    separated by commas. *)
Fixpoint render (t : json) : string :=
  match t with
  | JStr s => render_string s
  | JObj fields =>
      String lbrace
        (join_fields
           (List.map (λ kv, render_string kv.1 +:+ ": " +:+ render kv.2) fields)
         +:+ String rbrace EmptyString)
  end.

(** No dictionary of the tree has two fields with one key. *)
#[warnings="-register-all"]
Inductive keys_unique : json → Prop :=
  | keys_unique_str s : keys_unique (JStr s)
  | keys_unique_obj fields :
      NoDup fields.*1 → Forall (λ kv, keys_unique kv.2) fields →
      keys_unique (JObj fields).

(** A parser outside strings, with nothing pending but perhaps a key. *)
Definition idle (hp : list (list (string * value))) (buf : string) (pj : nat)
    (stk : list (nat * option string)) : parser :=
  Parser hp buf pj stk false false EmptyString false.

(** A value that refers to no dictionary created before [lo]. *)
Definition fresh_value (lo : nat) (v : value) : Prop :=
  match v with
  | VStr _ => True
  | VObj h => lo ≤ h
  end.

(** Scanning the text of [t] with the key [k] pending on the last frame
    stores under [k], in the dictionary [obj] of that frame, a value that
    reads back as [t]; the parser is left outside strings on the same
    frames, and the dictionaries that were there are untouched, [obj]
    apart. *)
Definition parses_value (t : json) : Prop :=
  ∀ hp buf pj fs obj k d,
    wf (idle hp buf pj (fs ++ [(obj, Some k)])) →
    hp !! obj = Some d →
    keys_unique t →
    ∃ hp' val,
      scan (render t) (idle hp buf pj (fs ++ [(obj, Some k)]))
      = Some (idle hp' buf pj (fs ++ [(obj, None)])) ∧
      hp' !! obj = Some (dict_set k val d) ∧
      length hp ≤ length hp' ∧
      (∀ h, h < length hp → h ≠ obj → hp' !! h = hp !! h) ∧
      fresh_value (length hp) val ∧
      ∃ fuel, read fuel hp' val = Some t.

(** The same for the text of a list of fields, whose entries are added,
    in their order, to the dictionary of the last frame. *)
Definition parses_fields (fields : list (string * json)) : Prop :=
  ∀ hp buf pj fs obj d,
    wf (idle hp buf pj (fs ++ [(obj, None)])) →
    hp !! obj = Some d →
    NoDup (d.*1 ++ fields.*1) →
    Forall (λ kv, keys_unique kv.2) fields →
    ∃ hp' entries,
      scan (join_fields
              (List.map (λ kv, render_string kv.1 +:+ ": " +:+ render kv.2) fields))
           (idle hp buf pj (fs ++ [(obj, None)]))
      = Some (idle hp' buf pj (fs ++ [(obj, None)])) ∧
      hp' !! obj = Some (d ++ entries) ∧
      length hp ≤ length hp' ∧
      (∀ h, h < length hp → h ≠ obj → hp' !! h = hp !! h) ∧
      Forall2 (λ e f, e.1 = f.1 ∧ fresh_value (length hp) e.2 ∧
                      ∃ fuel, read fuel hp' e.2 = Some f.2) entries fields.

(** A tree with an escaped quote, a nested and an empty dictionary. *)
Definition sample_tree : list (string * json) :=
  [("a", JStr (py "x'y\z")); ("o", JObj [("i", JStr "v"); ("e", JObj [])]);
   ("", JStr "")].

(** ** The callers of the parser in main.py *)













(** ** The test cases of the program *)

Example test_streaming_json_parser :
  get <$> run [py "{'foo': 'bar'}"] = Some (Some (JObj [("foo", JStr "bar")])).
Proof. vm_compute. reflexivity. Qed.

Example test_chunked_streaming_json_parser :
  get <$> run [py "{'foo':"; py "'bar'}"] = Some (Some (JObj [("foo", JStr "bar")])).
Proof. vm_compute. reflexivity. Qed.

Example test_partial_streaming_json_parser :
  get <$> run [py "{'foo': 'bar"] = Some (Some (JObj [("foo", JStr "bar")])).
Proof. vm_compute. reflexivity. Qed.

Example test_nested_json_parser :
  get <$> run [py "{'outer': {'inner': 'value'}}"]
  = Some (Some (JObj [("outer", JObj [("inner", JStr "value")])])).
Proof. vm_compute. reflexivity. Qed.

Example test_multiple_chunks :
  get <$> run [py "{'a': 'b', 'c':"; py " 'd'}"]
  = Some (Some (JObj [("a", JStr "b"); ("c", JStr "d")])).
Proof. vm_compute. reflexivity. Qed.

Example test_incomplete_nested_json :
  get <$> run [py "{'outer': {'inner': 'value"]
  = Some (Some (JObj [("outer", JObj [("inner", JStr "value")])])).
Proof. vm_compute. reflexivity. Qed.

Example test_mixed_chunk_order :
  get <$> run [py "{'key1': 'val1', 'key2':"; py " 'val2', 'key3': 'val3'}"]
  = Some (Some (JObj [("key1", JStr "val1"); ("key2", JStr "val2");
                      ("key3", JStr "val3")])).
Proof. vm_compute. reflexivity. Qed.

Example test_empty_input : get init = Some (JObj []).
Proof. reflexivity. Qed.

Example test_partial_key_input :
  get <$> run [py "{'foo"] = Some (Some (JObj [])).
Proof. vm_compute. reflexivity. Qed.

(** ** Dictionaries *)

Section dict.
Implicit Types (k : string) (v : value) (d : list (string * value)).

Lemma dict_set_set k v v' d :
  dict_set k v (dict_set k v' d) = dict_set k v d.
Proof.
  induction d as [|[k0 v0] d IH]; simpl.
  - by rewrite decide_True.
  - destruct (decide (k0 = k)) as [->|Hne]; simpl.
    + by rewrite decide_True.
    + rewrite decide_False by done. by rewrite IH.
Qed.

Lemma dict_get_set_eq k v d : dict_get k (dict_set k v d) = Some v.
Proof.
  induction d as [|[k0 v0] d IH]; simpl.
  - by rewrite decide_True.
  - destruct (decide (k0 = k)) as [->|Hne]; simpl.
    + by rewrite decide_True.
    + by rewrite decide_False.
Qed.

Lemma dict_get_set_ne k k' v d :
  k ≠ k' → dict_get k' (dict_set k v d) = dict_get k' d.
Proof.
  intros Hne. induction d as [|[k0 v0] d IH]; simpl.
  - by rewrite decide_False.
  - destruct (decide (k0 = k)) as [->|Hne0]; simpl.
    + by rewrite !decide_False.
    + by rewrite IH.
Qed.

Lemma dict_get_elem_of k v d : dict_get k d = Some v → (k, v) ∈ d.
Proof.
  induction d as [|[k0 v0] d IH]; simpl; [done|].
  destruct (decide (k0 = k)) as [->|Hne].
  - intros [= ->]. left.
  - intros H. right. by apply IH.
Qed.

Lemma dict_set_elem_of k v k' v' d :
  (k', v') ∈ dict_set k v d → (k', v') = (k, v) ∨ (k', v') ∈ d.
Proof.
  induction d as [|[k0 v0] d IH]; simpl.
  - intros ->%list_elem_of_singleton. by left.
  - destruct (decide (k0 = k)) as [->|Hne].
    + intros [->|H]%elem_of_cons; [by left|]. right. by right.
    + intros [->|H]%elem_of_cons; [right; left|].
      destruct (IH H) as [?|?]; [by left|]. right. by right.
Qed.

Lemma dict_set_keys k v d :
  (dict_set k v d).*1 = if decide (k ∈ d.*1) then d.*1 else d.*1 ++ [k].
Proof.
  induction d as [|[k0 v0] d IH].
  - destruct (decide (k ∈ ([] : list (string * value)).*1)) as [Hin|_]; [|done].
    by apply elem_of_nil in Hin.
  - cbn [dict_set]. rewrite !fmap_cons. cbn [fst].
    destruct (decide (k0 = k)) as [->|Hne].
    + rewrite decide_True; [done|]. left.
    + rewrite fmap_cons, IH. cbn [fst].
      destruct (decide (k ∈ d.*1)) as [Hin|Hnin].
      * rewrite decide_True; [done|]. by right.
      * rewrite decide_False; [done|].
        intros [?|?]%elem_of_cons; congruence.
Qed.

Lemma dict_set_NoDup k v d : NoDup d.*1 → NoDup (dict_set k v d).*1.
Proof.
  intros Hd. rewrite dict_set_keys. case_decide; [done|].
  apply NoDup_app. split_and!; [done| |apply NoDup_singleton].
  intros x Hx ->%list_elem_of_singleton. done.
Qed.

Lemma dict_count_notin k d : k ∉ d.*1 → dict_count k d = 0.
Proof.
  unfold dict_count. induction d as [|[k0 v0] d IH]; simpl; [done|].
  intros Hnin. rewrite filter_cons. simpl.
  rewrite decide_False.
  - apply IH. intros ?. apply Hnin. by right.
  - intros ->. apply Hnin. left.
Qed.

Lemma dict_count_NoDup k d : NoDup d.*1 → k ∈ d.*1 → dict_count k d = 1.
Proof.
  unfold dict_count. induction d as [|[k0 v0] d IH]; simpl.
  - intros _ []%elem_of_nil.
  - intros [Hnin Hd]%NoDup_cons Hin. rewrite filter_cons. simpl.
    destruct (decide (k0 = k)) as [->|Hne]; simpl.
    + f_equal. by apply dict_count_notin.
    + apply IH; [done|]. apply elem_of_cons in Hin as [?|?]; [by subst|done].
Qed.

Lemma dict_set_count k v d :
  NoDup d.*1 → dict_count k (dict_set k v d) = 1.
Proof.
  intros Hd. apply dict_count_NoDup; [by apply dict_set_NoDup|].
  rewrite dict_set_keys. case_decide; [done|].
  apply elem_of_app. right. left.
Qed.
End dict.

(** ** The loop does not look at what it has already scanned *)

Ltac unfold_parser :=
  unfold step, close_string, open_object, close_object, open_string, expose,
    store, stack_top, set_stack_top, stack_append, stack_pop,
    set_heap, set_buffer, set_stack, set_in_string, set_escape,
    set_current_string, set_expecting_colon in *;
  cbn [heap buffer partial_json stack in_string escape current_string
       expecting_colon] in *.

Lemma step_set_buffer b char self :
  step char (set_buffer b self) = set_buffer b <$> step char self.
Proof.
  destruct self as [hp buf pj stk ins esc cur ec]. unfold_parser.
  destruct ins, esc, ec; repeat case_decide; try done;
    destruct (last stk) as [[obj [key|]]|]; try done; by destruct (isspace char).
Qed.

Lemma scan_set_buffer b rest self :
  scan rest (set_buffer b self) = set_buffer b <$> scan rest self.
Proof.
  revert self. induction rest as [|char rest IH]; intros self; [done|].
  cbn [scan]. rewrite step_set_buffer.
  destruct (step char self) as [self'|]; [|done]. apply IH.
Qed.

Lemma expose_set_buffer b self :
  expose (set_buffer b self) = set_buffer b <$> expose self.
Proof.
  destruct self as [hp buf pj stk ins esc cur ec]. unfold_parser.
  destruct ins, ec; try done; destruct (last stk) as [[obj [key|]]|]; done.
Qed.

Lemma step_buffer char self self' :
  step char self = Some self' → buffer self' = buffer self.
Proof.
  destruct self as [hp buf pj stk ins esc cur ec]. unfold_parser.
  destruct ins, esc, ec; repeat case_decide;
    destruct (last stk) as [[obj [key|]]|]; destruct (isspace char);
    intros; by simplify_eq/=.
Qed.

Lemma scan_buffer rest self self' :
  scan rest self = Some self' → buffer self' = buffer self.
Proof.
  revert self. induction rest as [|char rest IH]; intros self; cbn [scan].
  - by intros [= ->].
  - destruct (step char self) as [self1|] eqn:Hstep; [|done]. cbn.
    intros ->%IH. by eapply step_buffer.
Qed.

Lemma expose_buffer self self' :
  expose self = Some self' → buffer self' = buffer self.
Proof.
  destruct self as [hp buf pj stk ins esc cur ec]. unfold_parser.
  destruct ins, ec; destruct (last stk) as [[obj [key|]]|];
    intros; by simplify_eq/=.
Qed.

Lemma set_buffer_id self : set_buffer (buffer self) self = self.
Proof. by destruct self. Qed.

Lemma set_buffer_set_buffer b b' self :
  set_buffer b (set_buffer b' self) = set_buffer b self.
Proof. done. Qed.

(** On a parser with an empty buffer, [consume] scans the chunk and
    applies the end-of-call rule. *)
Lemma consume_scan chunk self :
  buffer self = "" → consume chunk self = scan chunk self ≫= expose.
Proof.
  intros Hbuf. unfold consume, _parse. rewrite Hbuf.
  change ("" +:+ chunk) with chunk. cbn [buffer set_buffer].
  change (Parser _ _ _ _ _ _ _ _) with (set_buffer chunk self).
  rewrite scan_set_buffer.
  destruct (scan chunk self) as [self1|] eqn:Hscan; [|done].
  cbn [fmap option_fmap option_map mbind option_bind].
  rewrite expose_set_buffer.
  destruct (expose self1) as [self2|] eqn:Hexp; [|done].
  cbn [fmap option_fmap option_map mbind option_bind].
  f_equal. rewrite set_buffer_set_buffer.
  apply expose_buffer in Hexp. apply scan_buffer in Hscan.
  rewrite <-Hbuf, <-Hscan, <-Hexp. apply set_buffer_id.
Qed.

Lemma scan_app a b self : scan (a +:+ b) self = scan a self ≫= scan b.
Proof.
  revert self. induction a as [|char a IH]; intros self; [done|].
  simpl. destruct (step char self); [apply IH|done].
Qed.

(** ** The stack as a list that grows at its end *)

Lemma set_last_snoc {A} (l : list A) (x y : A) :
  <[pred (length (l ++ [x])) := y]> (l ++ [x]) = l ++ [y].
Proof.
  rewrite length_app. cbn [length]. rewrite Nat.add_1_r. cbn [pred].
  rewrite insert_app_r_alt by done. by rewrite Nat.sub_diag.
Qed.

Lemma stack_snoc (stk : list (nat * option string)) :
  stk ≠ [] → ∃ fs obj key, stk = fs ++ [(obj, key)].
Proof.
  intros Hne. destruct (last stk) as [[obj key]|] eqn:Hlast.
  - apply last_Some in Hlast as [fs ->]. eauto.
  - by apply last_None in Hlast.
Qed.

Lemma length_snoc_gt {A} (fs : list A) (f g : A) : 1 < length (fs ++ [f; g]).
Proof. rewrite length_app. cbn [length]. lia. Qed.

Lemma removelast_snoc2 {A} (fs : list A) (f g : A) :
  removelast (fs ++ [f; g]) = fs ++ [f].
Proof.
  change [f; g] with ([f] ++ [g]). by rewrite app_assoc, removelast_last.
Qed.

(** ** One character at a time *)

Lemma step_transition char self :
  stack self ≠ [] → ∃ self', step char self = Some self' ∧ transition self self'.
Proof.
  destruct self as [hp buf pj stk ins esc cur ec]. cbn [stack].
  intros (fs & obj & key & ->)%stack_snoc. unfold_parser.
  rewrite !last_snoc, ?set_last_snoc. destruct ins.
  - destruct esc; [eexists; split; [done|constructor]|].
    case_decide; [eexists; split; [done|constructor]|].
    case_decide; [|eexists; split; [done|constructor]].
    destruct ec; cbn.
    + rewrite ?set_last_snoc. eexists; split; [done|constructor].
    + destruct key as [k|]; cbn.
      * rewrite ?set_last_snoc. eexists; split; [done|constructor].
      * eexists; split; [done|constructor].
  - case_decide.
    { destruct key as [k|]; [|eexists; split; [done|constructor]].
      rewrite ?set_last_snoc, <-?app_assoc. eexists; split; [done|constructor]. }
    case_decide.
    { case_decide as Hlen; [|eexists; split; [done|constructor]].
      destruct fs as [|f0 fs0 _] using rev_ind; [cbn in Hlen; lia|].
      rewrite <-app_assoc. cbn [app]. rewrite removelast_snoc2.
      eexists; split; [done|constructor]. }
    case_decide.
    { destruct key as [k|]; cbn; [eexists; split; [done|constructor]|].
      destruct ec; cbn; (eexists; split; [done|constructor]). }
    repeat case_decide; destruct (isspace char); eexists; (split; [done|constructor]).
Qed.

Lemma transition_stack self self' :
  transition self self' → stack self ≠ [] → stack self' ≠ [].
Proof. destruct 1; cbn [stack]; try done; intros _; by destruct fs. Qed.

Lemma step_total char self :
  stack self ≠ [] → ∃ self', step char self = Some self' ∧ stack self' ≠ [].
Proof.
  intros Hne. destruct (step_transition char self Hne) as (self' & Hstep & Ht).
  exists self'. split; [done|]. by eapply transition_stack.
Qed.

Lemma scan_total rest self :
  stack self ≠ [] → ∃ self', scan rest self = Some self' ∧ stack self' ≠ [].
Proof.
  revert self. induction rest as [|char rest IH]; intros self Hne; cbn [scan].
  - eauto.
  - destruct (step_total char self Hne) as (self1 & -> & Hne1). by apply IH.
Qed.

Lemma expose_total self :
  stack self ≠ [] → ∃ self', expose self = Some self' ∧ stack self' = stack self.
Proof.
  destruct self as [hp buf pj stk ins esc cur ec]. cbn [stack].
  intros (fs & obj & key & ->)%stack_snoc. unfold_parser. rewrite last_snoc.
  destruct ins, ec, key; cbn; eauto.
Qed.

(** ** Chunk boundaries *)

Lemma alter_dict_set_set k v v' obj (hp : list (list (string * value))) :
  alter (dict_set k v) obj (alter (dict_set k v') obj hp)
  = alter (dict_set k v) obj hp.
Proof.
  rewrite list_alter_alter_eq. apply list_alter_ext; [|done].
  intros d _. apply dict_set_set.
Qed.

Lemma expose_exposed self self' : expose self = Some self' → exposed self' self.
Proof.
  destruct self as [hp buf pj stk ins esc cur ec]. unfold exposed. unfold_parser.
  destruct ins, ec; cbn; try (intros [= <-]; by left).
  destruct (last stk) as [[obj [key|]]|] eqn:Hlast; cbn; [| |done].
  - intros [= <-]. right. split_and!; [done..|]. by exists obj, key, cur.
  - intros [= <-]. by left.
Qed.

Lemma exposed_expose self1 self2 : exposed self1 self2 → expose self1 = expose self2.
Proof.
  intros [->|(Hin & Hec & obj & key & s & Htop & ->)]; [done|].
  destruct self2 as [hp buf pj stk ins esc cur ec]. unfold_parser.
  subst ins ec. rewrite Htop. cbn. by rewrite alter_dict_set_set.
Qed.

Lemma step_exposed char self1 self2 :
  stack self2 ≠ [] → exposed self1 self2 →
  ∃ self1' self2', step char self1 = Some self1' ∧ step char self2 = Some self2' ∧
                   exposed self1' self2' ∧ stack self2' ≠ [].
Proof.
  intros Hne [->|(Hin & Hec & obj & key & s & Htop & ->)].
  { destruct (step_total char self2 Hne) as (self' & Hstep & Hne').
    exists self', self'. split_and!; [done..|by left|done]. }
  destruct self2 as [hp buf pj stk ins esc cur ec]. unfold_parser.
  subst ins ec. apply last_Some in Htop as [fs ->].
  assert (∀ esc' cur',
    exposed (Parser (alter (dict_set key (VStr s)) obj hp) buf pj
                    (fs ++ [(obj, Some key)]) true esc' cur' false)
            (Parser hp buf pj (fs ++ [(obj, Some key)]) true esc' cur' false))
    as Hstill.
  { intros esc' cur'. right. split_and!; [done..|]. exists obj, key, s.
    unfold_parser. by rewrite last_snoc. }
  destruct esc.
  { eexists _, _. split_and!; [done..|apply Hstill|by destruct fs]. }
  case_decide.
  { eexists _, _. split_and!; [done..|apply Hstill|by destruct fs]. }
  case_decide.
  - rewrite !last_snoc. cbn. rewrite alter_dict_set_set, !set_last_snoc.
    eexists _, _. split_and!; [done..|by left|by destruct fs].
  - eexists _, _. split_and!; [done..|apply Hstill|by destruct fs].
Qed.

Lemma scan_exposed rest self1 self2 :
  stack self2 ≠ [] → exposed self1 self2 →
  ∃ self1' self2', scan rest self1 = Some self1' ∧ scan rest self2 = Some self2' ∧
                   exposed self1' self2' ∧ stack self2' ≠ [].
Proof.
  revert self1 self2. induction rest as [|char rest IH]; intros self1 self2 Hne Hex.
  - by exists self1, self2.
  - destruct (step_exposed char _ _ Hne Hex) as (y1 & y2 & Hs1 & Hs2 & Hex' & Hne').
    cbn [scan]. rewrite Hs1, Hs2. cbn. by apply IH.
Qed.

(** Two calls on the two halves of a text leave the parser that one call
    on the whole text leaves. *)
Lemma consume_split a b self :
  buffer self = "" → stack self ≠ [] →
  consume a self ≫= consume b = consume (a +:+ b) self.
Proof.
  intros Hbuf Hne. rewrite (consume_scan a), (consume_scan (a +:+ b)), scan_app by done.
  destruct (scan_total a self Hne) as (self1 & Hscan & Hne1). rewrite Hscan.
  cbn [mbind option_bind].
  destruct (expose_total self1 Hne1) as (self2 & Hexp & Hstk). rewrite Hexp.
  cbn [mbind option_bind].
  rewrite consume_scan.
  2:{ apply expose_buffer in Hexp. apply scan_buffer in Hscan. congruence. }
  destruct (scan_exposed b self2 self1 Hne1 (expose_exposed _ _ Hexp))
    as (y2 & y1 & -> & -> & Hex & _).
  cbn [mbind option_bind]. by apply exposed_expose.
Qed.

(** ** The shape of the store *)

Section store_shape.
Implicit Types (hp : list (list (string * value))) (hs : list nat).

Lemma heap_wf_store hp obj k v :
  heap_wf hp → value_ok hp obj v → heap_wf (alter (dict_set k v) obj hp).
Proof.
  intros (Hok & Hkeys & Hpar) Hv.
  assert (∀ h d k' h', alter (dict_set k v) obj hp !! h = Some d →
            (k', VObj h') ∈ d →
            (h = obj ∧ v = VObj h') ∨ (∃ d0, hp !! h = Some d0 ∧ (k', VObj h') ∈ d0))
    as Hinv.
  { intros h d k' h' Hd Hin. destruct (decide (obj = h)) as [->|Hne].
    - rewrite list_lookup_alter_eq in Hd.
      destruct (hp !! h) as [d0|] eqn:Hd0; [|done]. injection Hd as <-.
      apply dict_set_elem_of in Hin as [[= -> ->]|Hin]; [by left|]. right. eauto.
    - rewrite list_lookup_alter_ne in Hd by done. right. eauto. }
  split_and!.
  - intros h d k' h' Hd Hin. rewrite length_alter.
    destruct (Hinv _ _ _ _ Hd Hin) as [[-> ->]|(d0 & Hd0 & Hin0)].
    + by destruct Hv as [? _].
    + by eapply Hok.
  - intros h d Hd. destruct (decide (obj = h)) as [->|Hne].
    + rewrite list_lookup_alter_eq in Hd.
      destruct (hp !! h) as [d0|] eqn:Hd0; [|done]. injection Hd as <-.
      apply dict_set_NoDup. by eapply Hkeys.
    + rewrite list_lookup_alter_ne in Hd by done. by eapply Hkeys.
  - intros h1 d1 k1 h2 d2 k2 h' Hd1 Hin1 Hd2 Hin2.
    destruct (Hinv _ _ _ _ Hd1 Hin1) as [[-> ->]|(d1' & Hd1' & Hin1')],
             (Hinv _ _ _ _ Hd2 Hin2) as [[-> Hv2]|(d2' & Hd2' & Hin2')];
      try done.
    + destruct Hv as [_ Hfresh]. by destruct (Hfresh _ _ _ Hd2' Hin2').
    + subst v. destruct Hv as [_ Hfresh]. by destruct (Hfresh _ _ _ Hd1' Hin1').
    + by eapply Hpar.
Qed.

Lemma lookup_alloc hp h d :
  (hp ++ [[]]) !! h = Some d → hp !! h = Some d ∨ (h = length hp ∧ d = []).
Proof.
  intros [?|(Hlen & Hd)]%lookup_app_Some; [by left|]. right.
  apply list_lookup_singleton_Some in Hd as [Hz <-]. split; [lia|done].
Qed.

Lemma heap_wf_alloc hp : heap_wf hp → heap_wf (hp ++ [[]]).
Proof.
  intros (Hok & Hkeys & Hpar). split_and!.
  - intros h d k h' [Hd|[-> ->]]%lookup_alloc Hin; [|by apply elem_of_nil in Hin].
    rewrite length_app. cbn [length]. pose proof (Hok _ _ _ _ Hd Hin). lia.
  - intros h d [Hd|[-> ->]]%lookup_alloc; [by eapply Hkeys|]. constructor.
  - intros h1 d1 k1 h2 d2 k2 h' [Hd1|[-> ->]]%lookup_alloc Hin1
      [Hd2|[-> ->]]%lookup_alloc Hin2;
      try (by apply elem_of_nil in Hin1); try (by apply elem_of_nil in Hin2).
    by eapply Hpar.
Qed.

Lemma value_ok_alloc hp obj :
  heap_ok hp → obj < length hp → value_ok (hp ++ [[]]) obj (VObj (length hp)).
Proof.
  intros Hok Hobj. split.
  - rewrite length_app. cbn [length]. lia.
  - intros h d k [Hd|[-> ->]]%lookup_alloc Hin; [|by apply elem_of_nil in Hin].
    pose proof (Hok _ _ _ _ Hd Hin). lia.
Qed.

Lemma rpath_ext hp hp' hs :
  rpath hp hs → (∀ x, x ∈ hs → hp' !! x = hp !! x) → rpath hp' hs.
Proof.
  induction 1 as [Hroot|h h' hs d k Hp IH Hd Hget]; intros Hext.
  - apply rpath_root. rewrite Hext; [done|]. left.
  - eapply rpath_cons; [| |done].
    + apply IH. intros x Hx. apply Hext. by right.
    + rewrite Hext; [done|]. right. left.
Qed.

Lemma rpath_lt hp h hs :
  heap_ok hp → rpath hp (h :: hs) → ∀ x, x ∈ hs → x < h.
Proof.
  intros Hok Hp. remember (h :: hs) as l eqn:Hl. revert h hs Hl.
  induction Hp as [Hroot|h0 h' hs0 d k Hp IH Hd Hget]; intros h hs [= <- <-] x Hx.
  - by apply elem_of_nil in Hx.
  - pose proof (Hok _ _ _ _ Hd (dict_get_elem_of _ _ _ Hget)) as [Hlt _].
    apply elem_of_cons in Hx as [->|Hx]; [done|].
    specialize (IH _ _ eq_refl _ Hx). lia.
Qed.

Lemma rpath_live hp hs : heap_ok hp → rpath hp hs → ∀ x, x ∈ hs → x < length hp.
Proof.
  intros Hok. induction 1 as [Hroot|h h' hs d k Hp IH Hd Hget]; intros x Hx.
  - apply list_elem_of_singleton in Hx as ->. by apply lookup_lt_is_Some.
  - apply elem_of_cons in Hx as [->|Hx]; [|by apply IH].
    by pose proof (Hok _ _ _ _ Hd (dict_get_elem_of _ _ _ Hget)) as [_ ?].
Qed.

(** Writing into the dictionary at the end of the path keeps the path. *)
Lemma rpath_store hp obj hs k v :
  heap_ok hp → rpath hp (obj :: hs) → rpath (alter (dict_set k v) obj hp) (obj :: hs).
Proof.
  intros Hok Hp. pose proof (rpath_lt _ _ _ Hok Hp) as Hlt.
  inversion Hp as [Hroot|h h' hs0 d k0 Hp0 Hd Hget]; subst.
  - apply rpath_root. rewrite list_lookup_alter_eq. by apply fmap_is_Some.
  - eapply rpath_cons; [| |done].
    + eapply rpath_ext; [done|]. intros x Hx.
      apply list_lookup_alter_ne. specialize (Hlt _ Hx). lia.
    + rewrite list_lookup_alter_ne; [done|].
      assert (h < obj) by (apply Hlt; left). lia.
Qed.

Lemma rpath_alloc hp hs : heap_ok hp → rpath hp hs → rpath (hp ++ [[]]) hs.
Proof.
  intros Hok Hp. eapply rpath_ext; [done|]. intros x Hx.
  apply lookup_app_l. by eapply rpath_live.
Qed.

Lemma rpath_nested hp h hs : rpath hp (h :: hs) → nested hp 0 (length hs) h.
Proof.
  intros Hp. remember (h :: hs) as l eqn:Hl. revert h hs Hl.
  induction Hp as [Hroot|h0 h' hs0 d k Hp IH Hd Hget]; intros h hs [= <- <-].
  - constructor.
  - cbn [length]. eapply nested_child; [|done..]. by apply IH.
Qed.

(** The depth of a dictionary below the result dictionary is unique. *)
Lemma nested_functional hp n m h :
  heap_wf hp → nested hp 0 n h → nested hp 0 m h → n = m.
Proof.
  intros (Hok & _ & Hpar) Hn. revert m.
  induction Hn as [|n h d k h' Hn IH Hd Hget]; intros m Hm.
  - inversion Hm as [|m0 h0 d0 k0 h0' Hm0 Hd0 Hget0]; [done|]. subst.
    pose proof (Hok _ _ _ _ Hd0 (dict_get_elem_of _ _ _ Hget0)). lia.
  - inversion Hm as [|m0 h0 d0 k0 h0' Hm0 Hd0 Hget0]; subst.
    + pose proof (Hok _ _ _ _ Hd (dict_get_elem_of _ _ _ Hget)). lia.
    + f_equal. apply IH.
      by rewrite (Hpar _ _ _ _ _ _ _ Hd (dict_get_elem_of _ _ _ Hget)
                       Hd0 (dict_get_elem_of _ _ _ Hget0)).
Qed.
End store_shape.

(** ** The invariant holds *)

Lemma stack_objs_snoc (fs : list (nat * option string)) obj key :
  reverse (fs ++ [(obj, key)]).*1 = obj :: reverse fs.*1.
Proof. by rewrite fmap_app, reverse_app. Qed.

Lemma stack_objs_snoc2 (fs : list (nat * option string)) f g :
  reverse (fs ++ [f; g]).*1 = g.1 :: f.1 :: reverse fs.*1.
Proof. by rewrite fmap_app, reverse_app. Qed.

Lemma wf_init : wf init.
Proof.
  constructor; cbn; try done.
  - by apply rpath_root.
  - split_and!.
    + intros [|h] d k h'; [|done]. intros [= <-] Hin. by apply elem_of_nil in Hin.
    + intros [|h] d; [|done]. intros [= <-]. constructor.
    + intros [|h1] d1 k1 h2 d2 k2 h'; [|done]. intros [= <-] Hin.
      by apply elem_of_nil in Hin.
Qed.

(** Writing the accumulator into the slot of the last frame. *)
Lemma wf_store_top hp buf pj fs obj key key' v ins esc cur ec ins' esc' cur' ec' :
  wf (Parser hp buf pj (fs ++ [(obj, key)]) ins esc cur ec) →
  value_ok hp obj v →
  (ins' = false → ec' = false) →
  (ins' = true → ec' = true ↔ key' = None) →
  ∀ k, wf (Parser (alter (dict_set k v) obj hp) buf pj (fs ++ [(obj, key')])
             ins' esc' cur' ec').
Proof.
  intros [Hroot Hpath Hheap _ _] Hv Hout' Hin' k.
  cbn [heap stack partial_json] in *. rewrite stack_objs_snoc in Hpath.
  constructor; cbn [heap stack partial_json in_string expecting_colon]; try done.
  - rewrite stack_objs_snoc. apply rpath_store; [apply Hheap|done].
  - by apply heap_wf_store.
  - intros Hi. exists obj, key'. unfold stack_top. cbn [stack].
    rewrite last_snoc. split; [done|]. by apply Hin'.
Qed.

Lemma wf_transition self self' : wf self → transition self self' → wf self'.
Proof.
  intros Hwf Ht. destruct Ht.
  - destruct Hwf as [Hroot Hpath Hheap Hout Hin]. by constructor.
  - destruct Hwf as [Hroot Hpath Hheap Hout Hin]. by constructor.
  - destruct Hwf as [Hroot Hpath Hheap Hout Hin]. by constructor.
  - destruct Hwf as [Hroot Hpath Hheap Hout Hin].
    cbn [heap stack partial_json in_string expecting_colon] in *.
    constructor; cbn [heap stack partial_json in_string expecting_colon]; try done.
    rewrite stack_objs_snoc in Hpath. by rewrite stack_objs_snoc.
  - by eapply wf_store_top.
  - destruct Hwf as [Hroot Hpath Hheap Hout Hin]. by constructor.
  - destruct Hwf as [Hroot Hpath Hheap Hout Hin].
    cbn [heap stack partial_json in_string expecting_colon] in *.
    rewrite stack_objs_snoc in Hpath. destruct Hheap as (Hok & Hkeys & Hpar).
    assert (obj < length hp) as Hobj by (eapply rpath_live; [done..|left]).
    assert (heap_wf (hp ++ [[]])) as Hwf' by by apply heap_wf_alloc.
    constructor; cbn [heap stack partial_json in_string expecting_colon];
      [done| | |done|done].
    + rewrite stack_objs_snoc2. cbn [fst].
      destruct (lookup_lt_is_Some_2 hp obj Hobj) as [d Hd].
      eapply (rpath_cons _ _ _ _ (dict_set k (VObj (length hp)) d) k).
      * apply rpath_store; [apply Hwf'|]. by apply rpath_alloc.
      * rewrite list_lookup_alter_eq, lookup_app_l, Hd by done. done.
      * apply dict_get_set_eq.
    + apply heap_wf_store; [done|]. by apply value_ok_alloc.
  - destruct Hwf as [Hroot Hpath Hheap Hout Hin].
    cbn [heap stack partial_json in_string expecting_colon] in *.
    constructor; cbn [heap stack partial_json in_string expecting_colon]; try done.
    destruct f as [f1 f2].
    rewrite stack_objs_snoc2 in Hpath. rewrite stack_objs_snoc.
    cbn [fst] in *. by inversion Hpath.
  - destruct Hwf as [Hroot Hpath Hheap Hout Hin].
    cbn [heap stack partial_json in_string expecting_colon] in *.
    constructor; cbn [heap stack partial_json in_string expecting_colon]; try done.
    intros _. exists obj, None. unfold stack_top. cbn [stack].
    by rewrite last_snoc.
  - destruct Hwf as [Hroot Hpath Hheap Hout Hin].
    cbn [heap stack partial_json in_string expecting_colon] in *.
    rewrite Hout by done.
    constructor; cbn [heap stack partial_json in_string expecting_colon]; try done.
    intros _. exists obj, (Some k). unfold stack_top. cbn [stack].
    by rewrite last_snoc.
  - done.
Qed.

Lemma wf_stack self : wf self → stack self ≠ [].
Proof.
  intros [_ Hpath _ _ _] Hnil. rewrite Hnil in Hpath. inversion Hpath.
Qed.

Lemma wf_step char self :
  wf self → ∃ self', step char self = Some self' ∧ wf self'.
Proof.
  intros Hwf. destruct (step_transition char self (wf_stack _ Hwf))
    as (self' & Hstep & Ht).
  exists self'. split; [done|]. by eapply wf_transition.
Qed.

Lemma wf_scan rest self :
  wf self → ∃ self', scan rest self = Some self' ∧ wf self'.
Proof.
  revert self. induction rest as [|char rest IH]; intros self Hwf; cbn [scan].
  - eauto.
  - destruct (wf_step char self Hwf) as (self1 & -> & Hwf1). by apply IH.
Qed.

Lemma wf_expose self :
  wf self → ∃ self', expose self = Some self' ∧ wf self'.
Proof.
  intros Hwf. pose proof (wf_stack _ Hwf) as Hne.
  destruct self as [hp buf pj stk ins esc cur ec]. cbn [stack] in Hne.
  apply stack_snoc in Hne as (fs & obj & key & ->).
  unfold expose, stack_top. cbn [in_string expecting_colon stack current_string].
  rewrite last_snoc. destruct ins; [|eauto]. destruct ec; [eauto|].
  destruct key as [key|]; [|eauto]. cbn. eexists. split; [done|].
  unfold store, set_heap. cbn [heap buffer partial_json stack in_string escape
    current_string expecting_colon].
  by eapply wf_store_top.
Qed.

Lemma wf_consume chunk self :
  wf self → buffer self = "" →
  ∃ self', consume chunk self = Some self' ∧ wf self' ∧ buffer self' = "".
Proof.
  intros Hwf Hbuf. rewrite consume_scan by done.
  destruct (wf_scan chunk self Hwf) as (self1 & Hscan & Hwf1). rewrite Hscan.
  destruct (wf_expose self1 Hwf1) as (self2 & Hexp & Hwf2).
  exists self2. split_and!; [done..|].
  apply expose_buffer in Hexp. apply scan_buffer in Hscan. congruence.
Qed.

Lemma run_snoc chunks chunk : run (chunks ++ [chunk]) = run chunks ≫= consume chunk.
Proof. unfold run. by rewrite foldl_snoc. Qed.

Lemma wf_run chunks :
  ∃ self, run chunks = Some self ∧ wf self ∧ buffer self = "".
Proof.
  induction chunks as [|chunk chunks (self & Hrun & Hwf & Hbuf)] using rev_ind.
  - exists init. split_and!; [done|apply wf_init|done].
  - rewrite run_snoc, Hrun. by apply wf_consume.
Qed.

(** ** Reading the result back *)

Lemma read_ok (hp : list (list (string * value))) :
  heap_ok hp → ∀ fuel h, h < length hp → length hp - h ≤ fuel →
  ∃ fields, read fuel hp (VObj h) = Some (JObj fields).
Proof.
  intros Hok. induction fuel as [|fuel IH]; intros h Hh Hfuel; [lia|].
  cbn [read]. destruct (lookup_lt_is_Some_2 hp h Hh) as [d Hd]. rewrite Hd.
  cbn [mbind option_bind].
  destruct (mapM_is_Some_2
              (λ e : string * value, v' ← read fuel hp e.2; Some (e.1, v')) d)
    as [fields ->]; [|by eexists].
  apply Forall_forall. intros [k [s|h']] Hin; cbn [compose snd].
  { destruct fuel; by eexists. }
  pose proof (Hok _ _ _ _ Hd Hin) as [Hlt Hlive].
  destruct (IH h' Hlive) as [fields' ->]; [lia|]. by eexists.
Qed.

Lemma wf_get self : wf self → ∃ fields, get self = Some (JObj fields).
Proof.
  intros Hwf. unfold get. apply read_ok.
  - apply Hwf.
  - rewrite (wf_root _ Hwf). eapply rpath_live; [apply Hwf|apply (wf_path _ Hwf)|].
    pose proof (wf_stack _ Hwf) as Hne. apply stack_snoc in Hne as (fs & obj & key & Hstk).
    rewrite Hstk, stack_objs_snoc in *.
    pose proof (wf_path _ Hwf) as Hp. rewrite Hstk, stack_objs_snoc in Hp.
    clear -Hp. remember (obj :: reverse fs.*1) as l eqn:Hl. clear Hl.
    induction Hp; [left|by right].
  - lia.
Qed.

(** ** Strings in flight *)

Lemma append_String c s1 s2 : String c s1 +:+ s2 = String c (s1 +:+ s2).
Proof. reflexivity. Qed.

Lemma append_char_app cur char s :
  append_char cur char +:+ s = cur +:+ String char s.
Proof.
  unfold append_char. induction cur as [|c cur IH]; [done|].
  by rewrite !append_String, IH.
Qed.

Lemma append_empty_r s : s +:+ "" = s.
Proof. induction s as [|c s IH]; [done|]. by rewrite append_String, IH. Qed.

Lemma scan_in_string chunk hp buf pj stk esc cur ec s e :
  string_body esc chunk = Some (s, e) →
  scan chunk (Parser hp buf pj stk true esc cur ec)
  = Some (Parser hp buf pj stk true e (cur +:+ s) ec).
Proof.
  revert esc cur s. induction chunk as [|char rest IH]; intros esc cur s.
  - cbn. intros [= <- <-]. by rewrite append_empty_r.
  - cbn [string_body scan]. unfold step.
    cbn [in_string escape current_string]. destruct esc.
    + destruct (string_body false rest) as [[s' e']|] eqn:Hbody; [|done].
      cbn. intros [= <- <-]. unfold_parser.
      rewrite (IH _ _ _ Hbody). by rewrite append_char_app.
    + case_decide.
      { intros Hbody. cbn. unfold_parser. by apply IH. }
      case_decide; [done|].
      destruct (string_body false rest) as [[s' e']|] eqn:Hbody; [|done].
      cbn. intros [= <- <-]. unfold_parser.
      rewrite (IH _ _ _ Hbody). by rewrite append_char_app.
Qed.

(** ** The properties of the specification *)

Lemma run_split chunks a b :
  run (chunks ++ [a; b]) = run (chunks ++ [a +:+ b]).
Proof.
  change [a; b] with ([a] ++ [b]). rewrite app_assoc, !run_snoc.
  destruct (wf_run chunks) as (self & -> & Hwf & Hbuf).
  cbn [mbind option_bind]. apply consume_split; [done|by apply wf_stack].
Qed.

(** C1. Chunk-boundary insensitivity: for every text and every split of it
    into [a] and [b], a fresh parser fed [a] and then [b] ends as the same
    parser, with the same snapshot, as a fresh parser fed the whole text
    [a + b] in one call. *)
Theorem chunk_boundary_insensitive (a b : string) :
  ∃ self fields,
    run [a; b] = Some self ∧ run [a +:+ b] = Some self ∧
    get self = Some (JObj fields).
Proof.
  destruct (wf_run [a +:+ b]) as (self & Hrun & Hwf & _).
  destruct (wf_get self Hwf) as [fields Hget].
  exists self, fields. split_and!; [|done..].
  change (run [a; b]) with (run ([] ++ [a; b])). by rewrite run_split.
Qed.

(** C5. [consume] never fails: in every state a parser can be brought to
    by a sequence of calls, [consume] of any chunk, empty or malformed,
    raises no error and returns the parser, which is the state a further
    call starts from. *)
Theorem consume_never_fails (chunks : list string) (self : parser) (chunk : string) :
  run chunks = Some self →
  ∃ self', consume chunk self = Some self' ∧ run (chunks ++ [chunk]) = Some self'.
Proof.
  intros Hrun. destruct (wf_run chunks) as (self0 & Hrun0 & Hwf & Hbuf).
  rewrite Hrun in Hrun0. injection Hrun0 as <-.
  destruct (wf_consume chunk self Hwf Hbuf) as (self' & Hc & _).
  exists self'. split; [done|]. by rewrite run_snoc, Hrun.
Qed.

Lemma consume_never_fails_witness :
  run [py "{'a': 'b"] = Some (Parser [[("a", VStr "b")]] "" 0 [(0, Some "a")] true false "b" false) ∧
  ∃ self', consume (py "}}\'x[3, }") (Parser [[("a", VStr "b")]] "" 0 [(0, Some "a")] true false "b" false) = Some self' ∧
           run ([py "{'a': 'b"] ++ [py "}}\'x[3, }"]) = Some self'.
Proof.
  split; [vm_compute; reflexivity|].
  apply (consume_never_fails [py "{'a': 'b"]). vm_compute. reflexivity.
Defined.

Lemma rpath_last hp hs : rpath hp hs → last hs = Some 0.
Proof. induction 1 as [|h h' hs d k Hp IH]; [done|]. by rewrite last_cons_cons. Qed.

Lemma wf_bottom self :
  wf self → ∃ key, stack self !! 0 = Some (partial_json self, key).
Proof.
  intros Hwf. pose proof (rpath_last _ _ (wf_path _ Hwf)) as Hlast.
  rewrite last_reverse, (wf_root _ Hwf) in *.
  destruct (stack self) as [|[obj key] stk]; [done|].
  cbn in Hlast. injection Hlast as ->. by exists key.
Qed.

Lemma wf_depth self obj key :
  wf self → stack_top self = Some (obj, key) →
  nested (heap self) (partial_json self) (length (stack self) - 1) obj.
Proof.
  intros Hwf Htop. apply last_Some in Htop as [fs Hstk].
  pose proof (wf_path _ Hwf) as Hp. rewrite Hstk, stack_objs_snoc in Hp.
  apply rpath_nested in Hp. rewrite (wf_root _ Hwf), Hstk, length_app.
  rewrite length_reverse, length_fmap in Hp. cbn [length].
  by replace (length fs + 1 - 1) with (length fs) by lia.
Qed.

Lemma removelast_take {A} (l : list A) : removelast l = take (length l - 1) l.
Proof.
  destruct l as [|x l _] using rev_ind; [done|].
  rewrite removelast_last, length_app. cbn [length].
  replace (length l + 1 - 1) with (length l) by lia. by rewrite take_app_length.
Qed.

Lemma set_stack_id self : set_stack (stack self) self = self.
Proof. by destruct self. Qed.

Lemma close_object_take self :
  close_object self
  = Some (set_stack (take (1 `max` (length (stack self) - 1)) (stack self)) self).
Proof.
  unfold close_object, stack_pop. case_decide as Hlen.
  - rewrite removelast_take. do 3 f_equal. lia.
  - rewrite take_ge by lia. by rewrite set_stack_id.
Qed.

(** Closing braces outside a string pop one frame each and stop at the
    first frame. *)
Lemma scan_braces n self :
  in_string self = false →
  scan (braces n) self
  = Some (set_stack (take (1 `max` (length (stack self) - n)) (stack self)) self).
Proof.
  revert self. induction n as [|n IH]; intros self Hout; cbn [braces scan].
  - rewrite take_ge by lia. by rewrite set_stack_id.
  - unfold step. rewrite Hout.
    rewrite decide_False by done. rewrite decide_True by done.
    rewrite close_object_take. cbn [mbind option_bind]. rewrite IH by done.
    f_equal. destruct self as [hp buf pj stk ins esc cur ec].
    unfold set_stack. cbn [heap buffer partial_json stack in_string escape
      current_string expecting_colon]. f_equal.
    rewrite take_take, length_take. destruct stk as [|f stk]; [by rewrite !take_nil|].
    f_equal. cbn [length]. lia.
Qed.

(** C6. Frame-stack invariant: after construction and after every call of
    [consume] the stack is not empty, its first frame holds the result
    dictionary created by [__init__], and the dictionary of its last frame
    sits exactly [len(stack) - 1] levels below the result dictionary;
    closing braces never pop the first frame: fed [n] of them outside a
    string, the parser keeps the first [max 1 (len(stack) - n)] frames. *)
Theorem frame_stack_invariant (chunks : list string) :
  ∃ self,
    run chunks = Some self ∧ stack self ≠ [] ∧
    partial_json self = partial_json init ∧
    (∃ key, stack self !! 0 = Some (partial_json init, key)) ∧
    (∃ obj key, stack_top self = Some (obj, key) ∧
       ∀ depth, nested (heap self) (partial_json self) depth obj ↔
                length (stack self) = depth + 1) ∧
    (∀ n, in_string self = false →
       ∃ self', consume (braces n) self = Some self' ∧
                stack self' = take (1 `max` (length (stack self) - n)) (stack self) ∧
                stack self' !! 0 = stack self !! 0).
Proof.
  destruct (wf_run chunks) as (self & Hrun & Hwf & Hbuf).
  exists self. pose proof (wf_stack _ Hwf) as Hne.
  split_and!; [done|done|apply Hwf| | |].
  - destruct (wf_bottom _ Hwf) as [key Hkey]. exists key.
    by rewrite Hkey, (wf_root _ Hwf).
  - destruct (stack_top self) as [[obj key]|] eqn:Htop.
    2:{ by apply last_None in Htop. }
    exists obj, key. split; [done|]. intros depth.
    pose proof (wf_depth _ _ _ Hwf Htop) as Hd.
    assert (0 < length (stack self)) by (destruct (stack self); [done|cbn; lia]).
    split.
    + intros Hn. rewrite (wf_root _ Hwf) in *.
      pose proof (nested_functional _ _ _ _ (wf_heap _ Hwf) Hn Hd). lia.
    + intros Hlen. by replace depth with (length (stack self) - 1) by lia.
  - intros n Hout. rewrite consume_scan, scan_braces by done.
    cbn [mbind option_bind]. unfold expose. cbn [in_string set_stack]. rewrite Hout.
    cbn [andb]. eexists. split; [done|]. cbn [stack]. split; [done|].
    apply lookup_take_lt. lia.
Qed.

(** C9. Shape of the result: after every sequence of calls the reference
    returned by [get] reads back, in full, as a dictionary whose values
    are strings or again such dictionaries; the only values the program
    ever stores in a slot are the accumulator string and a fresh
    dictionary, so no other shape can occur. *)
Theorem result_shape (chunks : list string) :
  ∃ self fields,
    run chunks = Some self ∧ get self = Some (JObj fields) ∧
    ∀ h d k v, heap self !! h = Some d → (k, v) ∈ d →
      (∃ s, v = VStr s) ∨ (∃ h', v = VObj h' ∧ h < h' ∧ is_Some (heap self !! h')).
Proof.
  destruct (wf_run chunks) as (self & Hrun & Hwf & Hbuf).
  destruct (wf_get self Hwf) as [fields Hget].
  exists self, fields. split_and!; [done..|].
  intros h d k [s|h'] Hd Hin; [left; by exists s|right].
  destruct (wf_heap _ Hwf) as (Hok & _ & _).
  destruct (Hok _ _ _ _ Hd Hin) as [Hlt Hlive].
  exists h'. split_and!; [done..|]. by apply lookup_lt_is_Some.
Qed.

(** A parser seen between two calls is the fresh parser, or what the
    end-of-call rule left of a parser satisfying the invariant. *)
Lemma run_inv chunks self :
  run chunks = Some self →
  self = init ∨ ∃ self1, wf self1 ∧ expose self1 = Some self.
Proof.
  destruct chunks as [|chunk chunks _] using rev_ind.
  - intros [= <-]. by left.
  - rewrite run_snoc. destruct (wf_run chunks) as (self0 & -> & Hwf & Hbuf).
    cbn [mbind option_bind]. rewrite consume_scan by done.
    destruct (wf_scan chunk self0 Hwf) as (self1 & -> & Hwf1).
    cbn [mbind option_bind]. intros Hexp. right. by exists self1.
Qed.

Lemma run_wf chunks self : run chunks = Some self → wf self ∧ buffer self = "".
Proof.
  intros Hrun. destruct (wf_run chunks) as (self0 & Hrun0 & Hwf & Hbuf).
  rewrite Hrun in Hrun0. by injection Hrun0 as <-.
Qed.

Lemma wf_top_live self obj key :
  wf self → stack_top self = Some (obj, key) → obj < length (heap self).
Proof.
  intros Hwf Htop. apply last_Some in Htop as [fs Hstk].
  pose proof (wf_path _ Hwf) as Hp. rewrite Hstk, stack_objs_snoc in Hp.
  eapply rpath_live; [apply Hwf|done|left].
Qed.

Lemma lookup_store hp obj key v :
  obj < length hp →
  ∃ d', alter (dict_set key v) obj hp !! obj = Some d' ∧ dict_get key d' = Some v.
Proof.
  intros [d Hd]%lookup_lt_is_Some_2. exists (dict_set key v d).
  rewrite list_lookup_alter_eq, Hd. split; [done|]. apply dict_get_set_eq.
Qed.

(** The end-of-call rule writes the accumulator into the slot of the value
    string in flight. *)
Lemma expose_entry self1 self obj key :
  wf self1 → expose self1 = Some self →
  in_string self = true → expecting_colon self = false →
  stack_top self = Some (obj, Some key) →
  ∃ d, heap self !! obj = Some d ∧ dict_get key d = Some (VStr (current_string self)).
Proof.
  intros Hwf Hexp Hin Hec Htop. destruct self1 as [hp buf pj stk ins esc cur ec].
  unfold expose, store, stack_top, set_heap in Hexp.
  cbn [heap buffer partial_json stack in_string escape current_string
       expecting_colon] in Hexp.
  destruct ins, ec; cbn in Hexp; try (injection Hexp as <-; done).
  destruct (last stk) as [[obj' [key'|]]|] eqn:Hlast; cbn in Hexp; [| |done].
  - injection Hexp as <-. unfold stack_top in Htop. cbn in Htop |- *.
    rewrite Hlast in Htop. injection Htop as -> ->.
    apply lookup_store. by eapply (wf_top_live _ _ _ Hwf).
  - injection Hexp as <-. unfold stack_top in Htop. cbn in Htop.
    by rewrite Hlast in Htop.
Qed.

Lemma expose_fields p p' :
  expose p = Some p' →
  in_string p' = in_string p ∧ current_string p' = current_string p ∧
  escape p' = escape p ∧ expecting_colon p' = expecting_colon p ∧
  stack p' = stack p.
Proof.
  destruct p as [hp buf pj stk ins esc cur ec]. unfold_parser.
  destruct ins, ec; cbn; try (by intros [= <-]).
  destruct (last stk) as [[obj [key|]]|]; cbn; [| |done]; by intros [= <-].
Qed.

(** C2. Partial-value exposure: when a call of [consume] ends inside a
    value string (in-string set, expecting-colon clear) and the last frame
    has a pending key, the dictionary of that frame, which is part of the
    snapshot, holds under that key exactly the accumulator; a further
    chunk that does not close the string extends the accumulator and the
    entry by its characters, a closing quote after it leaves the entry at
    the full text; and the end-of-call rule changes neither the in-string
    flag nor the accumulator. *)
Theorem partial_value_exposure (chunks : list string) (self : parser)
    (obj : nat) (key : string) :
  run chunks = Some self →
  in_string self = true → expecting_colon self = false →
  stack_top self = Some (obj, Some key) →
  (∃ d, heap self !! obj = Some d ∧
        dict_get key d = Some (VStr (current_string self))) ∧
  nested (heap self) (partial_json self) (length (stack self) - 1) obj ∧
  (∀ chunk s e, string_body (escape self) chunk = Some (s, e) →
     ∃ self' d',
       consume chunk self = Some self' ∧
       in_string self' = true ∧ expecting_colon self' = false ∧
       stack self' = stack self ∧
       current_string self' = current_string self +:+ s ∧
       heap self' !! obj = Some d' ∧
       dict_get key d' = Some (VStr (current_string self +:+ s))) ∧
  (∀ chunk s, string_body (escape self) chunk = Some (s, false) →
     ∃ self' d',
       consume (chunk +:+ String dquote "") self = Some self' ∧
       in_string self' = false ∧
       heap self' !! obj = Some d' ∧
       dict_get key d' = Some (VStr (current_string self +:+ s))) ∧
  (∀ p p', expose p = Some p' →
     in_string p' = in_string p ∧ current_string p' = current_string p).
Proof.
  intros Hrun Hin Hec Htop. destruct (run_wf _ _ Hrun) as [Hwf Hbuf].
  pose proof (wf_top_live _ _ _ Hwf Htop) as Hlive.
  split_and!.
  - destruct (run_inv _ _ Hrun) as [->|(self1 & Hwf1 & Hexp)]; [done|].
    by eapply expose_entry.
  - by eapply wf_depth.
  - intros chunk s e Hbody. rewrite consume_scan by done.
    destruct self as [hp buf pj stk ins esc cur ec].
    cbn [in_string expecting_colon escape current_string stack heap] in *.
    subst ins ec. rewrite (scan_in_string _ _ _ _ _ _ _ _ _ _ Hbody).
    cbn [mbind option_bind]. unfold expose, stack_top in *. cbn [in_string
      expecting_colon stack current_string andb negb] in *. rewrite Htop.
    cbn [mbind option_bind]. unfold store, set_heap.
    cbn [heap buffer partial_json stack in_string escape current_string
         expecting_colon].
    destruct (lookup_store hp obj key (VStr (cur +:+ s)) Hlive) as (d' & Hd' & Hget).
    eexists _, d'. split; [done|]. by cbn.
  - intros chunk s Hbody. rewrite consume_scan, scan_app by done.
    destruct self as [hp buf pj stk ins esc cur ec].
    cbn [in_string expecting_colon escape current_string stack heap] in *.
    subst ins ec. rewrite (scan_in_string _ _ _ _ _ _ _ _ _ _ Hbody).
    cbn [mbind option_bind scan]. unfold step, close_string, stack_top in *.
    cbn [in_string expecting_colon stack current_string escape set_in_string] in *.
    rewrite decide_False by done. rewrite decide_True by done.
    rewrite Htop. cbn [mbind option_bind]. unfold expose.
    cbn [in_string set_current_string set_stack_top set_stack store set_heap
         andb heap buffer partial_json stack escape current_string
         expecting_colon].
    destruct (lookup_store hp obj key (VStr (cur +:+ s)) Hlive) as (d' & Hd' & Hget).
    eexists _, d'. split; [done|]. by cbn.
  - intros p p' Hexp. by destruct (expose_fields _ _ Hexp) as (? & ? & _).
Qed.

Lemma partial_value_exposure_witness :
  (run [py "{'foo': 'ba"] = Some parser_foo_ba ∧
   in_string parser_foo_ba = true ∧ expecting_colon parser_foo_ba = false ∧
   stack_top parser_foo_ba = Some (0, Some "foo")) ∧
  (∃ d, heap parser_foo_ba !! 0 = Some d ∧
        dict_get "foo" d = Some (VStr (current_string parser_foo_ba))) ∧
  nested (heap parser_foo_ba) (partial_json parser_foo_ba)
         (length (stack parser_foo_ba) - 1) 0 ∧
  (∀ chunk s e, string_body (escape parser_foo_ba) chunk = Some (s, e) →
     ∃ self' d',
       consume chunk parser_foo_ba = Some self' ∧
       in_string self' = true ∧ expecting_colon self' = false ∧
       stack self' = stack parser_foo_ba ∧
       current_string self' = current_string parser_foo_ba +:+ s ∧
       heap self' !! 0 = Some d' ∧
       dict_get "foo" d' = Some (VStr (current_string parser_foo_ba +:+ s))) ∧
  (∀ chunk s, string_body (escape parser_foo_ba) chunk = Some (s, false) →
     ∃ self' d',
       consume (chunk +:+ String dquote "") parser_foo_ba = Some self' ∧
       in_string self' = false ∧
       heap self' !! 0 = Some d' ∧
       dict_get "foo" d' = Some (VStr (current_string parser_foo_ba +:+ s))) ∧
  (∀ p p', expose p = Some p' →
     in_string p' = in_string p ∧ current_string p' = current_string p).
Proof.
  assert (run [py "{'foo': 'ba"] = Some parser_foo_ba) as Hrun
    by (vm_compute; reflexivity).
  split; [by split_and!|].
  by apply (partial_value_exposure [py "{'foo': 'ba"] parser_foo_ba 0 "foo").
Defined.

(** C3. A partial key is never exposed: when a call of [consume] ends
    inside a key string (in-string and expecting-colon set), a further
    chunk that does not close the string goes to the accumulator only:
    the store, and with it the snapshot, stay as they are, and the
    end-of-call rule assigns nothing.  The same holds for the call in
    which the key string opens: the store stays as it was before the
    opening quote.  In particular a fresh parser fed an opening brace, a
    double quote and [foo] leaves the empty dictionary. *)
Theorem partial_key_not_exposed (chunks : list string) (self : parser)
    (chunk s : string) (e : bool) :
  run chunks = Some self →
  in_string self = true → expecting_colon self = true →
  string_body (escape self) chunk = Some (s, e) →
  (∃ self',
     consume chunk self = Some self' ∧
     scan chunk self = Some self' ∧
     heap self' = heap self ∧ get self' = get self ∧
     in_string self' = true ∧ expecting_colon self' = true ∧
     stack self' = stack self ∧
     current_string self' = current_string self +:+ s) ∧
  (∀ p, expecting_colon p = true → expose p = Some p) ∧
  (∀ p pre p1 obj body s1 e1,
     buffer p = "" → scan pre p = Some p1 →
     in_string p1 = false → expecting_colon p1 = false →
     stack_top p1 = Some (obj, None) →
     string_body (escape p1) body = Some (s1, e1) →
     ∃ p', consume (pre +:+ String dquote body) p = Some p' ∧
           heap p' = heap p1 ∧ stack p' = stack p1 ∧
           in_string p' = true ∧ expecting_colon p' = true) ∧
  (get <$> run [py "{'foo"]) = Some (Some (JObj [])).
Proof.
  intros Hrun Hin Hec Hbody. destruct (run_wf _ _ Hrun) as [Hwf Hbuf].
  split_and!.
  - rewrite consume_scan by done.
    destruct self as [hp buf pj stk ins esc cur ec].
    cbn [in_string expecting_colon escape current_string stack heap] in *.
    subst ins ec. rewrite (scan_in_string _ _ _ _ _ _ _ _ _ _ Hbody).
    eexists. by split_and!.
  - intros p Hp. unfold expose. rewrite Hp. by rewrite andb_false_r.
  - intros p pre p1 obj body s1 e1 Hpbuf Hpre Hout Hnc Hptop Hpbody.
    rewrite consume_scan, scan_app, Hpre by done. cbn [mbind option_bind scan].
    destruct p1 as [hp buf pj stk ins esc cur ec].
    unfold step, open_string, stack_top in *.
    cbn [in_string expecting_colon escape current_string stack heap
         set_in_string] in *.
    subst ins ec. rewrite decide_False by done. rewrite decide_False by done.
    rewrite decide_True by done. rewrite Hptop.
    unfold set_expecting_colon, set_in_string.
    cbn [mbind option_bind negb heap buffer partial_json
         stack in_string escape current_string expecting_colon].
    rewrite (scan_in_string _ _ _ _ _ _ _ _ _ _ Hpbody).
    eexists. by split_and!.
  - vm_compute. reflexivity.
Qed.

Lemma partial_key_not_exposed_witness :
  (run [py "{'fo"] = Some parser_fo ∧
   in_string parser_fo = true ∧ expecting_colon parser_fo = true ∧
   string_body (escape parser_fo) "o" = Some ("o", false)) ∧
  ∃ self',
    consume "o" parser_fo = Some self' ∧
    scan "o" parser_fo = Some self' ∧
    heap self' = heap parser_fo ∧ get self' = get parser_fo ∧
    in_string self' = true ∧ expecting_colon self' = true ∧
    stack self' = stack parser_fo ∧
    current_string self' = current_string parser_fo +:+ "o".
Proof.
  assert (run [py "{'fo"] = Some parser_fo) as Hrun by (vm_compute; reflexivity).
  split; [by split_and!|].
  by apply (partial_key_not_exposed [py "{'fo"] parser_fo "o" "o" false).
Defined.

(** C4. Nesting: an opening brace met outside a string while the last
    frame has a pending key creates a new empty dictionary, stores it
    under that key in the dictionary of the frame, clears the pending key
    and pushes a frame for the new dictionary; a closing brace outside a
    string pops exactly one frame when there are at least two and nothing
    when there is one; a fresh parser fed [{'outer': {'inner': 'value],
    the quotes being double quotes, reads back as the dictionary with
    [outer] bound to the dictionary with [inner] bound to [value]. *)
Theorem nesting (self : parser) (fs : list (nat * option string))
    (obj : nat) (key : string) :
  in_string self = false →
  stack self = fs ++ [(obj, Some key)] →
  obj < length (heap self) →
  (∃ self' d,
     step lbrace self = Some self' ∧
     heap self' !! length (heap self) = Some [] ∧
     heap self' !! obj = Some d ∧
     dict_get key d = Some (VObj (length (heap self))) ∧
     stack self' = fs ++ [(obj, None); (length (heap self), None)] ∧
     length (heap self') = S (length (heap self))) ∧
  (∀ p gs f g, in_string p = false → stack p = gs ++ [f; g] →
     step rbrace p = Some (set_stack (gs ++ [f]) p)) ∧
  (∀ p f, in_string p = false → stack p = [f] → step rbrace p = Some p) ∧
  (get <$> run [py "{'outer': {'inner': 'value"])
  = Some (Some (JObj [("outer", JObj [("inner", JStr "value")])])).
Proof.
  intros Hout Hstk Hlive. split_and!.
  - destruct self as [hp buf pj stk ins esc cur ec].
    cbn [in_string stack heap] in *. subst ins stk.
    unfold step, open_object, stack_top, store, set_stack_top, stack_append,
      set_heap, set_stack.
    cbn [heap buffer partial_json stack in_string escape current_string
         expecting_colon].
    rewrite decide_True by done. rewrite last_snoc, set_last_snoc, <-app_assoc.
    destruct (lookup_store (hp ++ [[]]) obj key (VObj (length hp)))
      as (d & Hd & Hget).
    { rewrite length_app. lia. }
    eexists _, d. split; [done|].
    cbn [heap buffer partial_json stack in_string escape current_string
         expecting_colon].
    split_and!; [|done..|].
    + rewrite list_lookup_alter_ne by lia.
      rewrite lookup_app_r by lia. by rewrite Nat.sub_diag.
    + rewrite length_alter, length_app. cbn [length]. lia.
  - intros p gs f g Hp Hpstk. unfold step. rewrite Hp.
    rewrite decide_False by done. rewrite decide_True by done.
    unfold close_object, stack_pop. rewrite Hpstk.
    rewrite decide_True by apply length_snoc_gt. by rewrite removelast_snoc2.
  - intros p f Hp Hpstk. unfold step. rewrite Hp.
    rewrite decide_False by done. rewrite decide_True by done.
    unfold close_object. rewrite Hpstk. by rewrite decide_False by (cbn; lia).
  - vm_compute. reflexivity.
Qed.

Lemma nesting_witness :
  (in_string parser_outer = false ∧
   stack parser_outer = [] ++ [(0, Some "outer")] ∧
   0 < length (heap parser_outer)) ∧
  ∃ self' d,
    step lbrace parser_outer = Some self' ∧
    heap self' !! length (heap parser_outer) = Some [] ∧
    heap self' !! 0 = Some d ∧
    dict_get "outer" d = Some (VObj (length (heap parser_outer))) ∧
    stack self' = [] ++ [(0, None); (length (heap parser_outer), None)] ∧
    length (heap self') = S (length (heap parser_outer)).
Proof.
  split; [split_and!; [done..|cbn; lia]|].
  apply (nesting parser_outer [] 0 "outer"); [done..|cbn; lia].
Defined.

(** C8. Escape handling: inside a string a backslash met while no escape
    is pending appends nothing and sets escape-pending; the character met
    while an escape is pending, whatever it is, is appended to the
    accumulator as it is and escape-pending is cleared; so a backslash and
    the character after it add that character alone, and no escape
    sequence is decoded: the text [a\nb\u0041\'c\\d] of a value, with a
    double quote for ['], is stored as [anbu0041'c\d]. *)
Theorem escape_handling (self : parser) (char : ascii) :
  in_string self = true →
  (escape self = false → step backslash self = Some (set_escape true self)) ∧
  (escape self = true →
     step char self
     = Some (set_escape false
               (set_current_string (append_char (current_string self) char) self))) ∧
  (escape self = false →
     scan (String backslash (String char EmptyString)) self
     = Some (set_current_string (append_char (current_string self) char) self)) ∧
  (get <$> run [py "{'k': 'a\nb\u0041\'c\\d"])
  = Some (Some (JObj [("k", JStr (py "anbu0041'c\d"))])).
Proof.
  intros Hin. destruct self as [hp buf pj stk ins esc cur ec].
  cbn [in_string escape] in *. subst ins. split_and!.
  - by intros ->.
  - by intros ->.
  - by intros ->.
  - vm_compute. reflexivity.
Qed.

Lemma escape_handling_witness :
  in_string parser_foo_ba = true ∧
  (escape parser_foo_ba = false →
     step backslash parser_foo_ba = Some (set_escape true parser_foo_ba)) ∧
  (escape parser_foo_ba = true →
     step dquote parser_foo_ba
     = Some (set_escape false
               (set_current_string
                  (append_char (current_string parser_foo_ba) dquote)
                  parser_foo_ba))) ∧
  (escape parser_foo_ba = false →
     scan (String backslash (String dquote EmptyString)) parser_foo_ba
     = Some (set_current_string
               (append_char (current_string parser_foo_ba) dquote)
               parser_foo_ba)) ∧
  (get <$> run [py "{'k': 'a\nb\u0041\'c\\d"])
  = Some (Some (JObj [("k", JStr (py "anbu0041'c\d"))])).
Proof.
  split; [done|]. by apply (escape_handling parser_foo_ba dquote).
Defined.

Lemma dict_set_overwritten key v d :
  NoDup d.*1 → overwritten key v d (dict_set key v d).
Proof.
  intros Hd. split_and!.
  - apply dict_get_set_eq.
  - by apply dict_set_count.
  - intros k Hne. by apply dict_get_set_ne.
  - apply dict_set_keys.
Qed.

(** C10. Duplicate keys overwrite: when a value is attached under the
    pending key of the last frame, be it a string at its closing quote or
    a nested dictionary at an opening brace, the dictionary of the frame
    ends with a single entry for that key, holding the value just
    attached, whatever was attached under that key before; a fresh parser
    fed [{'a': 'x', 'a': 'y'}], the quotes being double quotes, reads back
    as the dictionary with [a] bound to [y] alone. *)
Theorem duplicate_keys_overwrite (self : parser) (obj : nat) (key : string)
    (d : list (string * value)) :
  wf self →
  stack_top self = Some (obj, Some key) →
  heap self !! obj = Some d →
  (in_string self = true → escape self = false → expecting_colon self = false →
   ∃ self' d',
     step dquote self = Some self' ∧ heap self' !! obj = Some d' ∧
     overwritten key (VStr (current_string self)) d d') ∧
  (in_string self = false →
   ∃ self' d',
     step lbrace self = Some self' ∧ heap self' !! obj = Some d' ∧
     overwritten key (VObj (length (heap self))) d d') ∧
  (get <$> run [py "{'a': 'x', 'a': 'y'}"]) = Some (Some (JObj [("a", JStr "y")])).
Proof.
  intros Hwf Htop Hd.
  assert (NoDup d.*1) as Hnodup.
  { destruct (wf_heap _ Hwf) as (_ & Hkeys & _). by eapply Hkeys. }
  pose proof (lookup_lt_Some _ _ _ Hd) as Hlive.
  destruct self as [hp buf pj stk ins esc cur ec].
  unfold stack_top in Htop. cbn [heap stack in_string escape expecting_colon
    current_string] in *.
  split_and!.
  - intros -> -> ->. unfold step, close_string, stack_top, store, set_stack_top,
      set_heap, set_stack, set_in_string, set_current_string.
    cbn [heap buffer partial_json stack in_string escape current_string
         expecting_colon].
    rewrite decide_False by done. rewrite decide_True by done. rewrite Htop.
    cbn [mbind option_bind heap buffer partial_json stack in_string escape
         current_string expecting_colon].
    eexists _, (dict_set key (VStr cur) d). split; [done|].
    cbn [heap]. rewrite list_lookup_alter_eq, Hd. split; [done|].
    by apply dict_set_overwritten.
  - intros ->. unfold step, open_object, stack_top, store, set_stack_top,
      stack_append, set_heap, set_stack.
    cbn [heap buffer partial_json stack in_string escape current_string
         expecting_colon].
    rewrite decide_True by done. rewrite Htop.
    eexists _, (dict_set key (VObj (length hp)) d). split; [done|].
    cbn [heap]. rewrite list_lookup_alter_eq, lookup_app_l, Hd by done.
    split; [done|]. by apply dict_set_overwritten.
  - vm_compute. reflexivity.
Qed.

Lemma duplicate_keys_overwrite_witness :
  (wf parser_a_y ∧ stack_top parser_a_y = Some (0, Some "a") ∧
   heap parser_a_y !! 0 = Some [("a", VStr "y")]) ∧
  (in_string parser_a_y = true → escape parser_a_y = false →
   expecting_colon parser_a_y = false →
   ∃ self' d',
     step dquote parser_a_y = Some self' ∧ heap self' !! 0 = Some d' ∧
     overwritten "a" (VStr (current_string parser_a_y)) [("a", VStr "y")] d') ∧
  (in_string parser_a_y = false →
   ∃ self' d',
     step lbrace parser_a_y = Some self' ∧ heap self' !! 0 = Some d' ∧
     overwritten "a" (VObj (length (heap parser_a_y))) [("a", VStr "y")] d') ∧
  (get <$> run [py "{'a': 'x', 'a': 'y'}"]) = Some (Some (JObj [("a", JStr "y")])).
Proof.
  assert (wf parser_a_y) as Hwf.
  { apply (run_wf [py "{'a': 'x', 'a': 'y"]). vm_compute. reflexivity. }
  split; [by split_and!|].
  by apply (duplicate_keys_overwrite parser_a_y 0 "a" [("a", VStr "y")]).
Defined.

Lemma step_inert char self :
  in_string self = false →
  char ≠ lbrace → char ≠ rbrace → char ≠ dquote → step char self = Some self.
Proof.
  intros Hout Hl Hr Hq. unfold step. rewrite Hout.
  rewrite !decide_False by done. destruct (isspace char); by repeat case_decide.
Qed.

Lemma scan_inert token self :
  in_string self = false → inert token = true → scan token self = Some self.
Proof.
  intros Hout. induction token as [|char rest IH]; [done|].
  cbn [inert scan]. rewrite !andb_true_iff, !negb_true_iff, !bool_decide_eq_false.
  intros (((Hl & Hr) & Hq) & Hrest). rewrite step_inert by done. by apply IH.
Qed.

(** C7, as the code has it.  Outside a string every character other than
    the two braces and the double quote is consumed with no effect: a
    token made of such characters, which numeric, boolean and null
    literals are, and arrays of them, leaves the parser, and so the
    result, as it was. *)
Theorem literals_skipped (self : parser) (token : string) :
  in_string self = false → inert token = true →
  scan token self = Some self ∧
  (buffer self = "" → consume token self = Some self) ∧
  Forall (λ t, inert t = true)
    ["0"; "-12.5e+3"; "true"; "false"; "null"; "[1, 2.5, [true, null]]"].
Proof.
  intros Hout Hinert. split_and!.
  - by apply scan_inert.
  - intros Hbuf. rewrite consume_scan, scan_inert by done.
    cbn [mbind option_bind]. unfold expose. by rewrite Hout.
  - repeat constructor.
Qed.

Lemma literals_skipped_witness :
  (in_string parser_outer = false ∧ inert "[-1.5e3, true, null]" = true) ∧
  scan "[-1.5e3, true, null]" parser_outer = Some parser_outer ∧
  (buffer parser_outer = "" →
   consume "[-1.5e3, true, null]" parser_outer = Some parser_outer) ∧
  Forall (λ t, inert t = true)
    ["0"; "-12.5e+3"; "true"; "false"; "null"; "[1, 2.5, [true, null]]"].
Proof.
  split; [by split|].
  by apply (literals_skipped parser_outer "[-1.5e3, true, null]").
Defined.

(** C7, as stated, fails on an array of strings: after the key [k] the
    array value [['x']], the quotes being double quotes, is not skipped;
    the string in it is taken for the value of [k] and makes an entry. *)
Lemma array_value_makes_entry :
  run [py "{'k': "] = Some parser_k ∧ in_string parser_k = false ∧
  get parser_k = Some (JObj []) ∧
  consume (py "['x']") parser_k = Some parser_k_x ∧
  get parser_k_x = Some (JObj [("k", JStr "x")]) ∧
  scan (py "['x']") parser_k ≠ Some parser_k.
Proof.
  split_and!; [vm_compute; reflexivity|done|done|vm_compute; reflexivity|done|].
  vm_compute. intros [=].
Qed.

(** ** Further properties: any number of chunks *)

Lemma append_assoc_str a b c : (a +:+ b) +:+ c = a +:+ (b +:+ c).
Proof. induction a as [|ch a IH]; [done|]. by rewrite !append_String, IH. Qed.

Lemma join_snoc chunks chunk : join (chunks ++ [chunk]) = join chunks +:+ chunk.
Proof.
  unfold join. induction chunks as [|c chunks IH]; cbn [app foldr].
  - by rewrite append_empty_r.
  - by rewrite IH, append_assoc_str.
Qed.

(** X2. The empty chunk is a no-op: in every state a parser is left in by
    a sequence of calls, [consume] of the empty string returns the parser
    unchanged; the end-of-call rule writes again the value it wrote at
    the end of the call before. *)
Theorem consume_empty (chunks : list string) (self : parser) :
  run chunks = Some self → consume EmptyString self = Some self.
Proof.
  destruct chunks as [|chunk chunks _] using rev_ind.
  - by intros [= <-].
  - intros Hrun. pose proof (run_split chunks chunk EmptyString) as Hsplit.
    rewrite append_empty_r in Hsplit.
    change [chunk; EmptyString] with ([chunk] ++ [EmptyString]) in Hsplit.
    rewrite app_assoc, run_snoc, Hrun in Hsplit. by rewrite <-Hsplit.
Qed.

Lemma consume_empty_witness :
  run [py "{'foo': 'ba"] = Some parser_foo_ba ∧
  consume EmptyString parser_foo_ba = Some parser_foo_ba.
Proof.
  assert (run [py "{'foo': 'ba"] = Some parser_foo_ba) as Hrun
    by (vm_compute; reflexivity).
  split; [done|]. by apply (consume_empty [py "{'foo': 'ba"]).
Defined.

(** X1. Chunking does not matter, for any number of chunks: after any
    earlier calls, feeding a list of chunks one call each leaves the
    parser that a single call on their concatenation leaves. *)
Theorem run_join (before chunks : list string) :
  run (before ++ chunks) = run (before ++ [join chunks]).
Proof.
  induction chunks as [|chunk chunks IH] using rev_ind.
  - rewrite app_nil_r, run_snoc. destruct (wf_run before) as (self & Hrun & _).
    rewrite Hrun. cbn [mbind option_bind join foldr].
    symmetry. by eapply consume_empty.
  - rewrite app_assoc, run_snoc, IH, <-run_snoc, <-app_assoc.
    change ([join chunks] ++ [chunk]) with [join chunks; chunk].
    by rewrite run_split, join_snoc.
Qed.

(** ** Further properties: what the parser keeps between calls *)

Section invariants.
Variable P : parser → Prop.
Hypothesis P_transition : ∀ self self', wf self → P self → transition self self' → P self'.
Hypothesis P_expose : ∀ self self', wf self → P self → expose self = Some self' → P self'.

Lemma scan_invariant rest self self' :
  wf self → P self → scan rest self = Some self' → wf self' ∧ P self'.
Proof.
  revert self. induction rest as [|char rest IH]; intros self Hwf HP; cbn [scan].
  - by intros [= <-].
  - destruct (step_transition char self (wf_stack _ Hwf)) as (self1 & -> & Ht).
    cbn [mbind option_bind]. apply IH; [by eapply wf_transition|by eapply P_transition].
Qed.

Lemma consume_invariant chunk self self' :
  wf self → buffer self = "" → P self → consume chunk self = Some self' → P self'.
Proof.
  intros Hwf Hbuf HP. rewrite consume_scan by done.
  destruct (scan chunk self) as [self1|] eqn:Hscan; [|done].
  cbn [mbind option_bind]. destruct (scan_invariant _ _ _ Hwf HP Hscan) as [Hwf1 HP1].
  by apply P_expose.
Qed.

Lemma run_invariant chunks self : P init → run chunks = Some self → P self.
Proof.
  intros Hinit. revert self.
  induction chunks as [|chunk chunks IH] using rev_ind; intros self.
  - by intros [= <-].
  - rewrite run_snoc. destruct (wf_run chunks) as (self0 & Hrun & Hwf & Hbuf).
    rewrite Hrun. cbn [mbind option_bind]. apply consume_invariant; [done..|].
    by apply IH.
Qed.
End invariants.

Lemma lookup_below_snoc {A} (fs : list A) (x y : A) i f :
  (fs ++ [x]) !! i = Some f → S i < length (fs ++ [x]) → (fs ++ [y]) !! i = Some f.
Proof.
  rewrite length_app. cbn [length]. intros Hi Hlt.
  rewrite lookup_app_l in Hi by lia. by rewrite lookup_app_l by lia.
Qed.

Lemma tidy_transition self self' : tidy self → transition self self' → tidy self'.
Proof.
  intros [Hesc Hcur Hbelow] Ht. destruct Ht;
    cbn [heap stack in_string escape current_string expecting_colon] in *;
    constructor; cbn [heap stack in_string escape current_string expecting_colon];
    try done.
  - intros i f Hi Hlt. rewrite length_app in Hlt. cbn [length] in Hlt.
    rewrite lookup_app_l in Hi by lia.
    apply (Hbelow i); [by rewrite lookup_app_l by lia|rewrite length_app; cbn; lia].
  - intros i f Hi Hlt. rewrite length_app in Hlt. cbn [length] in Hlt.
    rewrite lookup_app_l in Hi by lia.
    apply (Hbelow i); [by rewrite lookup_app_l by lia|rewrite length_app; cbn; lia].
  - intros i f Hi Hlt. rewrite length_app in Hlt. cbn [length] in Hlt.
    destruct (decide (i < length fs)) as [Hlt'|Hge].
    + rewrite lookup_app_l in Hi by lia.
      apply (Hbelow i); [by rewrite lookup_app_l by lia|rewrite length_app; cbn; lia].
    + assert (i = length fs) as -> by lia.
      rewrite lookup_app_r, Nat.sub_diag in Hi by lia. by injection Hi as <-.
  - intros i f0 Hi Hlt. rewrite length_app in Hlt. cbn [length] in Hlt.
    rewrite lookup_app_l in Hi by lia.
    apply (Hbelow i); [by rewrite lookup_app_l by lia|rewrite length_app; cbn; lia].
Qed.

Lemma tidy_expose self self' : tidy self → expose self = Some self' → tidy self'.
Proof.
  intros [Hesc Hcur Hbelow] Hexp.
  destruct (expose_fields _ _ Hexp) as (Hi & Hc & He & _ & Hs).
  constructor; rewrite ?Hi, ?Hc, ?He, ?Hs; done.
Qed.

(** X3. Between calls the attributes hang together: the buffer is empty;
    an escape is pending only inside a string; outside a string the
    accumulator is empty and expecting-colon is clear; inside a string
    expecting-colon is set exactly when the last frame has no pending
    key; and no frame below the last one has a pending key. *)
Theorem attributes_consistent (chunks : list string) :
  ∃ self,
    run chunks = Some self ∧ buffer self = EmptyString ∧
    (escape self = true → in_string self = true) ∧
    (in_string self = false →
       current_string self = EmptyString ∧ expecting_colon self = false) ∧
    (in_string self = true →
       ∃ obj key, stack_top self = Some (obj, key) ∧
                  (expecting_colon self = true ↔ key = None)) ∧
    (∀ i f, stack self !! i = Some f → S i < length (stack self) → f.2 = None).
Proof.
  destruct (wf_run chunks) as (self & Hrun & Hwf & Hbuf). exists self.
  assert (tidy self) as [Hesc Hcur Hbelow].
  { apply (run_invariant tidy) with chunks; [| | |done].
    3:{ constructor; cbn; [done..|]. intros i f _ Hlt. lia. }
    - intros ???. apply tidy_transition.
    - intros ???. apply tidy_expose. }
  split_and!; [done..| | |done].
  - intros Hout. split; [by apply Hcur|by apply (wf_out _ Hwf)].
  - apply (wf_in _ Hwf).
Qed.

Lemma keys_grow_refl hp : keys_grow hp hp.
Proof. intros h d Hd. by exists d. Qed.

Lemma keys_grow_trans hp1 hp2 hp3 :
  keys_grow hp1 hp2 → keys_grow hp2 hp3 → keys_grow hp1 hp3.
Proof.
  intros H12 H23 h d Hd. destruct (H12 _ _ Hd) as (d2 & Hd2 & Hp2).
  destruct (H23 _ _ Hd2) as (d3 & Hd3 & Hp3). exists d3. split; [done|].
  by etrans.
Qed.

Lemma keys_grow_store hp obj k v : keys_grow hp (alter (dict_set k v) obj hp).
Proof.
  intros h d Hd. destruct (decide (obj = h)) as [->|Hne].
  - exists (dict_set k v d). rewrite list_lookup_alter_eq, Hd. split; [done|].
    rewrite dict_set_keys. case_decide; [done|]. by apply prefix_app_r.
  - exists d. by rewrite list_lookup_alter_ne.
Qed.

Lemma keys_grow_alloc hp : keys_grow hp (hp ++ [[]]).
Proof. intros h d Hd. exists d. split; [by apply lookup_app_l_Some|done]. Qed.

Lemma keys_grow_transition self self' :
  transition self self' → keys_grow (heap self) (heap self').
Proof.
  destruct 1; cbn [heap]; try apply keys_grow_refl.
  - apply keys_grow_store.
  - eapply keys_grow_trans; [apply keys_grow_alloc|apply keys_grow_store].
Qed.

Lemma keys_grow_expose self self' :
  expose self = Some self' → keys_grow (heap self) (heap self').
Proof.
  destruct self as [hp buf pj stk ins esc cur ec]. unfold_parser.
  destruct ins, ec; cbn; try (intros [= <-]; apply keys_grow_refl).
  destruct (last stk) as [[obj [key|]]|]; cbn; [| |done]; intros [= <-]; cbn [heap].
  - apply keys_grow_store.
  - apply keys_grow_refl.
Qed.

Lemma mapM_keys {A B} (g : A → option B) (d : list (string * A))
    (fields : list (string * B)) :
  mapM (λ e, v' ← g e.2; Some (e.1, v')) d = Some fields → fields.*1 = d.*1.
Proof.
  intros HF%mapM_Some_1. induction HF as [|[k a] [k' b] d fields Hx HF IH]; [done|].
  rewrite !fmap_cons. cbn [fst snd] in *.
  destruct (g a); [|done]. cbn in Hx. injection Hx as -> ->. by f_equal.
Qed.

(** The keys of the snapshot are the keys of the result dictionary. *)
Lemma get_keys self fields :
  get self = Some (JObj fields) →
  ∃ d, heap self !! partial_json self = Some d ∧ fields.*1 = d.*1.
Proof.
  unfold get. destruct (length (heap self)) as [|fuel]; [done|]. cbn [read].
  destruct (heap self !! partial_json self) as [d|]; [|done].
  cbn [mbind option_bind].
  destruct (mapM _ d) as [fields'|] eqn:HmapM; [|done]. cbn [mbind option_bind].
  intros [= <-]. exists d. split; [done|]. by eapply mapM_keys.
Qed.

(** X4. Keys are never removed or reordered: a call of [consume] leaves
    every dictionary of the store in place with its keys in their order,
    new keys going to the end; so the keys of the snapshot before the
    call are an initial segment of its keys after the call. *)
Theorem keys_only_grow (chunks : list string) (self : parser) (chunk : string)
    (self' : parser) :
  run chunks = Some self → consume chunk self = Some self' →
  keys_grow (heap self) (heap self') ∧
  ∀ fields fields', get self = Some (JObj fields) →
                    get self' = Some (JObj fields') →
                    fields.*1 `prefix_of` fields'.*1.
Proof.
  intros Hrun Hconsume. destruct (run_wf _ _ Hrun) as [Hwf Hbuf].
  assert (keys_grow (heap self) (heap self')) as Hgrow.
  { apply (consume_invariant (λ p, keys_grow (heap self) (heap p)))
      with chunk self; [| |done|done|apply keys_grow_refl|done].
    - intros p p' _ Hp Ht. eapply keys_grow_trans; [done|].
      by apply keys_grow_transition.
    - intros p p' _ Hp Hexp. eapply keys_grow_trans; [done|].
      by apply keys_grow_expose. }
  split; [done|]. intros fields fields' Hget Hget'.
  destruct (get_keys _ _ Hget) as (d & Hd & ->).
  destruct (get_keys _ _ Hget') as (d' & Hd' & ->).
  destruct (Hgrow _ _ Hd) as (d2 & Hd2 & Hprefix).
  assert (partial_json self' = partial_json self) as Hpj.
  { assert (wf self') as Hwf'.
    { apply (run_wf (chunks ++ [chunk])). by rewrite run_snoc, Hrun. }
    by rewrite (wf_root _ Hwf), (wf_root _ Hwf'). }
  rewrite Hpj, Hd2 in Hd'. by injection Hd' as <-.
Qed.

Lemma keys_only_grow_witness :
  (run [py "{'foo': 'ba"] = Some parser_foo_ba ∧
   consume (py "r', 'x': '") parser_foo_ba = Some parser_foo_bar_x) ∧
  keys_grow (heap parser_foo_ba) (heap parser_foo_bar_x) ∧
  ∀ fields fields', get parser_foo_ba = Some (JObj fields) →
                    get parser_foo_bar_x = Some (JObj fields') →
                    fields.*1 `prefix_of` fields'.*1.
Proof.
  assert (run [py "{'foo': 'ba"] = Some parser_foo_ba) as Hrun
    by (vm_compute; reflexivity).
  assert (consume (py "r', 'x': '") parser_foo_ba = Some parser_foo_bar_x)
    as Hconsume by (vm_compute; reflexivity).
  split; [done|].
  by apply (keys_only_grow [py "{'foo': 'ba"] parser_foo_ba (py "r', 'x': '")).
Defined.

(** ** Further properties: well-formed text *)

Lemma string_body_escape_text s : string_body false (escape_text s) = Some (s, false).
Proof.
  induction s as [|c s IH]; [done|]. cbn [escape_text].
  destruct (decide (c = dquote ∨ c = backslash)) as [Hc|Hc].
  - cbn [string_body]. rewrite decide_True by done. cbn [string_body].
    by rewrite IH.
  - cbn [string_body]. rewrite decide_False by tauto.
    rewrite decide_False by tauto. by rewrite IH.
Qed.

(** A quoted string met with a pending key becomes the value of the key. *)
Lemma scan_value_string hp buf pj fs obj k s :
  scan (render_string s) (idle hp buf pj (fs ++ [(obj, Some k)]))
  = Some (idle (alter (dict_set k (VStr s)) obj hp) buf pj (fs ++ [(obj, None)])).
Proof.
  unfold render_string, idle. cbn [scan]. unfold step at 1. unfold_parser.
  rewrite decide_False by done. rewrite decide_False by done.
  rewrite decide_True by done. rewrite last_snoc. cbn [mbind option_bind].
  rewrite scan_app, (scan_in_string _ _ _ _ _ _ _ _ _ _ (string_body_escape_text s)).
  cbn [mbind option_bind scan]. unfold_parser.
  rewrite decide_False by done. rewrite decide_True by done. rewrite last_snoc.
  cbn [mbind option_bind]. by rewrite set_last_snoc.
Qed.

(** A quoted string met without a pending key becomes the pending key. *)
Lemma scan_key_string hp buf pj fs obj k :
  scan (render_string k) (idle hp buf pj (fs ++ [(obj, None)]))
  = Some (idle hp buf pj (fs ++ [(obj, Some k)])).
Proof.
  unfold render_string, idle. cbn [scan]. unfold step at 1. unfold_parser.
  rewrite decide_False by done. rewrite decide_False by done.
  rewrite decide_True by done. rewrite last_snoc. cbn [mbind option_bind negb].
  rewrite scan_app, (scan_in_string _ _ _ _ _ _ _ _ _ _ (string_body_escape_text k)).
  cbn [mbind option_bind scan]. unfold_parser.
  rewrite decide_False by done. rewrite decide_True by done. rewrite last_snoc.
  cbn [mbind option_bind]. by rewrite set_last_snoc.
Qed.

(** X6. A pending key waits for the next string: outside a string, with
    the key [k] pending on the last frame, a token of skipped characters
    followed by a quoted string stores that string under [k] and clears
    the pending key.  So after a key whose value is a number, the next
    key is taken for its value: the text [{'a': 1, 'b': 'c'}], the quotes
    being double quotes, reads back with [a] bound to [b]. *)
Theorem pending_key_takes_next_string (self : parser)
    (fs : list (nat * option string)) (obj : nat) (k token s : string) :
  in_string self = false → escape self = false →
  current_string self = EmptyString → expecting_colon self = false →
  stack self = fs ++ [(obj, Some k)] →
  inert token = true →
  scan (token +:+ render_string s) self
  = Some (set_stack (fs ++ [(obj, None)]) (store obj k (VStr s) self)) ∧
  (get <$> run [py "{'a': 1, 'b': 'c'}"]) = Some (Some (JObj [("a", JStr "b")])).
Proof.
  intros Hin Hesc Hcur Hec Hstk Hinert. split; [|vm_compute; reflexivity].
  rewrite scan_app, scan_inert by done. cbn [mbind option_bind].
  destruct self as [hp buf pj stk ins esc cur ec].
  cbn [in_string escape current_string expecting_colon stack] in *. subst.
  apply (scan_value_string hp buf pj fs obj k s).
Qed.

Lemma pending_key_takes_next_string_witness :
  (in_string parser_k = false ∧ escape parser_k = false ∧
   current_string parser_k = EmptyString ∧ expecting_colon parser_k = false ∧
   stack parser_k = [] ++ [(0, Some "k")] ∧ inert "12.5, " = true) ∧
  scan ("12.5, " +:+ render_string "next") parser_k
  = Some (set_stack ([] ++ [(0, None)]) (store 0 "k" (VStr "next") parser_k)) ∧
  (get <$> run [py "{'a': 1, 'b': 'c'}"]) = Some (Some (JObj [("a", JStr "b")])).
Proof.
  split; [by split_and!|].
  by apply (pending_key_takes_next_string parser_k [] 0 "k" "12.5, " "next").
Defined.

(** ** Further properties: reading a store *)

Lemma json_ind' (P : json → Prop) :
  (∀ s, P (JStr s)) →
  (∀ fields, Forall (λ kv, P kv.2) fields → P (JObj fields)) →
  ∀ t, P t.
Proof.
  intros Hs Ho. fix IH 1. intros [s|fields]; [apply Hs|]. apply Ho.
  induction fields as [|[k v] fields IHf]; constructor; [apply IH|apply IHf].
Qed.

(** More fuel reads the same tree. *)
Lemma read_mono hp fuel fuel' v t :
  read fuel hp v = Some t → fuel ≤ fuel' → read fuel' hp v = Some t.
Proof.
  revert fuel' v t. induction fuel as [|fuel IH]; intros fuel' [s|h] t; try done.
  - by destruct fuel'.
  - by destruct fuel'.
  - intros Hread Hle. destruct fuel' as [|fuel']; [lia|]. cbn [read] in *.
    destruct (hp !! h) as [d|]; [|done]. cbn [mbind option_bind] in *.
    destruct (mapM _ d) as [fields|] eqn:HmapM; [|done].
    cbn [mbind option_bind] in Hread. injection Hread as <-.
    rewrite (mapM_Some_2 _ d fields); [done|].
    apply mapM_Some_1 in HmapM. eapply Forall2_impl; [done|].
    intros [k v] y. cbn [fst snd].
    destruct (read fuel hp v) as [t'|] eqn:Hv; [|done].
    by rewrite (IH fuel' v t') by (done || lia).
Qed.

(** Reading a value visits only dictionaries from the one it refers to
    onwards: two stores that agree there read alike. *)
Lemma read_stable hp hp' lo fuel v :
  heap_ok hp →
  (∀ h, lo ≤ h → h < length hp → hp' !! h = hp !! h) →
  fresh_value lo v →
  (∀ h, v = VObj h → h < length hp) →
  read fuel hp' v = read fuel hp v.
Proof.
  intros Hok Hagree. revert v.
  induction fuel as [|fuel IH]; intros [s|h] Hfresh Hlive; try done.
  cbn [read]. cbn [fresh_value] in Hfresh. rewrite Hagree by auto.
  destruct (hp !! h) as [d|] eqn:Hd; [|done]. cbn [mbind option_bind].
  f_equal. apply Forall_mapM_ext, Forall_forall. intros [k v] Hin. cbn [fst snd].
  rewrite IH; [done| |].
  - destruct v as [s|h']; [done|]. cbn [fresh_value].
    pose proof (Hok _ _ _ _ Hd Hin). lia.
  - intros h' ->. by pose proof (Hok _ _ _ _ Hd Hin) as [_ ?].
Qed.

(** Entries that each read as the field of the same place, read together
    as the fields. *)
Lemma read_entries hp (entries : list (string * value)) (fields : list (string * json)) :
  Forall2 (λ e f, e.1 = f.1 ∧ ∃ fuel, read fuel hp e.2 = Some f.2) entries fields →
  ∃ fuel, mapM (λ e, v' ← read fuel hp e.2; Some (e.1, v')) entries = Some fields.
Proof.
  induction 1 as [|[k v] [k' t] entries fields [Hk [fuel1 Hv]] HF [fuel2 IH]].
  - by exists 0.
  - cbn [fst snd] in *. subst k'. exists (fuel1 `max` fuel2).
    apply mapM_Some_2. constructor.
    + cbn [fst snd]. by rewrite (read_mono _ _ _ _ _ Hv) by lia.
    + apply mapM_Some_1 in IH. eapply Forall2_impl; [done|].
      intros [k1 v1] y. cbn [fst snd].
      destruct (read fuel2 hp v1) as [t'|] eqn:Hv1; [|done].
      by rewrite (read_mono _ _ _ _ _ Hv1) by lia.
Qed.

Lemma dict_set_fresh k v (d : list (string * value)) :
  k ∉ d.*1 → dict_set k v d = d ++ [(k, v)].
Proof.
  induction d as [|[k0 v0] d IH]; [done|]. rewrite fmap_cons. cbn [fst dict_set].
  intros Hnin. rewrite decide_False.
  - cbn [app]. f_equal. apply IH. intros ?. apply Hnin. by right.
  - intros ->. apply Hnin. left.
Qed.

Lemma scan_wf rest self self' : wf self → scan rest self = Some self' → wf self'.
Proof.
  intros Hwf Hscan. destruct (wf_scan rest self Hwf) as (self1 & Hscan1 & Hwf1).
  rewrite Hscan in Hscan1. by injection Hscan1 as <-.
Qed.

(** ** Further properties: parsing well-formed text *)

Lemma scan_separator texts self :
  in_string self = false →
  scan (match texts with
        | [] => EmptyString
        | _ :: _ => ", " +:+ join_fields texts
        end) self
  = scan (join_fields texts) self.
Proof.
  intros Hout. destruct texts as [|text texts]; [done|].
  by rewrite scan_app, scan_inert.
Qed.

Lemma parses_fields_of fields :
  Forall (λ kv, parses_value kv.2) fields → parses_fields fields.
Proof.
  induction 1 as [|[k v] fields Hv _ IH];
    intros hp buf pj fs obj d Hwf Hd Hnodup Hunique.
  - exists hp, []. split_and!; [done|by rewrite app_nil_r|done|done|constructor].
  - cbn [fst snd] in *. apply Forall_cons in Hunique as [Hv_unique Hunique].
    rewrite fmap_cons in Hnodup. cbn [fst] in Hnodup.
    assert (k ∉ d.*1) as Hfresh.
    { apply NoDup_app in Hnodup as (_ & Hdisj & _). intros Hin.
      apply (Hdisj _ Hin). left. }
    pose proof (lookup_lt_Some _ _ _ Hd) as Hlive.
    (* the key, the colon *)
    pose proof (scan_key_string hp buf pj fs obj k) as Hkey.
    pose proof (scan_wf _ _ _ Hwf Hkey) as Hwf1.
    (* the value *)
    destruct (Hv hp buf pj fs obj k d Hwf1 Hd Hv_unique)
      as (hp1 & val & Hscan1 & Hd1 & Hlen1 & Hagree1 & Hval & fuel & Hread).
    pose proof (scan_wf _ _ _ Hwf1 Hscan1) as Hwf2.
    rewrite dict_set_fresh in Hd1 by done.
    (* the other fields *)
    destruct (IH hp1 buf pj fs obj (d ++ [(k, val)]) Hwf2 Hd1)
      as (hp2 & entries & Hscan2 & Hd2 & Hlen2 & Hagree2 & Hentries);
      [|done|].
    { rewrite fmap_app, <-app_assoc. done. }
    exists hp2, ((k, val) :: entries). split_and!.
    + cbn [List.map join_fields fst snd].
      rewrite scan_app, scan_app, Hkey. cbn [mbind option_bind].
      rewrite scan_app, scan_inert by done. cbn [mbind option_bind].
      rewrite Hscan1. cbn [mbind option_bind].
      by rewrite scan_separator.
    + by rewrite Hd2, <-app_assoc.
    + lia.
    + intros h Hh Hne. rewrite Hagree2 by (lia || done). by apply Hagree1.
    + constructor.
      * cbn [fst snd]. split_and!; [done..|]. exists fuel.
        rewrite <-Hread. apply (read_stable hp1 hp2 (length hp)).
        -- apply Hwf2.
        -- intros h Hlo Hhi. apply Hagree2; [done|lia].
        -- done.
        -- intros h ->. destruct (wf_heap _ Hwf2) as (Hok & _ & _).
           eapply (Hok obj _ k h); [done|].
           apply elem_of_app. right. left.
      * eapply Forall2_impl; [done|]. intros [k1 v1] f (? & Hf & ?).
        split_and!; [done| |done]. destruct v1 as [|h1]; [done|].
        cbn [fresh_value snd] in *. lia.
Qed.

Lemma parses_value_all t : parses_value t.
Proof.
  induction t as [s|fields IH] using json_ind';
    intros hp buf pj fs obj k d Hwf Hd Hunique.
  - exists (alter (dict_set k (VStr s)) obj hp), (VStr s). split_and!.
    + apply scan_value_string.
    + by rewrite list_lookup_alter_eq, Hd.
    + by rewrite length_alter.
    + intros h _ Hne. by rewrite list_lookup_alter_ne.
    + done.
    + by exists 0.
  - apply parses_fields_of in IH. inversion Hunique as [|? Hnodup Hvalues]; subst.
    pose proof (lookup_lt_Some _ _ _ Hd) as Hlive.
    set (n := length hp).
    set (hp1 := alter (dict_set k (VObj n)) obj (hp ++ [[]])).
    assert (step lbrace (idle hp buf pj (fs ++ [(obj, Some k)]))
            = Some (idle hp1 buf pj ((fs ++ [(obj, None)]) ++ [(n, None)])))
      as Hopen.
    { unfold idle, step. unfold_parser. rewrite decide_True by done.
      rewrite last_snoc, set_last_snoc. done. }
    assert (wf (idle hp1 buf pj ((fs ++ [(obj, None)]) ++ [(n, None)]))) as Hwf1.
    { destruct (wf_step lbrace _ Hwf) as (self1 & Hstep & Hwf1).
      rewrite Hopen in Hstep. by injection Hstep as <-. }
    assert (length hp1 = S n) as Hlen1.
    { unfold hp1. rewrite length_alter, length_app. cbn [length]. lia. }
    assert (hp1 !! n = Some []) as Hnew.
    { unfold hp1. rewrite list_lookup_alter_ne by lia.
      rewrite lookup_app_r by done. by rewrite Nat.sub_diag. }
    destruct (IH hp1 buf pj (fs ++ [(obj, None)]) n [] Hwf1 Hnew)
      as (hp2 & entries & Hscan2 & Hd2 & Hlen2 & Hagree2 & Hentries);
      [done|done|].
    exists hp2, (VObj n). split_and!.
    + cbn [render scan]. rewrite Hopen. cbn [mbind option_bind].
      rewrite scan_app, Hscan2. cbn [mbind option_bind scan].
      unfold idle, step. unfold_parser. rewrite decide_False by done.
      rewrite decide_True by done.
      rewrite decide_True by (rewrite !length_app; cbn [length]; lia).
      by rewrite removelast_last.
    + rewrite Hagree2 by lia. unfold hp1.
      by rewrite list_lookup_alter_eq, lookup_app_l, Hd.
    + lia.
    + intros h Hh Hne. rewrite Hagree2 by lia. unfold hp1.
      rewrite list_lookup_alter_ne by done. by rewrite lookup_app_l.
    + unfold fresh_value, n. lia.
    + destruct (read_entries hp2 entries fields) as [fuel Hfuel].
      { eapply Forall2_impl; [done|]. by intros e f (? & _ & ?). }
      exists (S fuel). cbn [read]. rewrite Hd2. cbn [mbind option_bind app].
      by rewrite Hfuel.
Qed.

(** X5. Well-formed text parses to what it says: for every tree of
    dictionaries with string leaves in which no dictionary repeats a key,
    whatever characters its keys and strings hold, a fresh parser fed
    the text of the tree (braces, quoted strings with a backslash before
    each double quote and backslash, colons and commas) returns from
    [get] exactly that tree, fields in their order, and is left outside
    strings with the single frame of the result dictionary; the same
    holds when the text arrives cut into chunks in any way. *)
Theorem well_formed_text_parses (fields : list (string * json)) :
  keys_unique (JObj fields) →
  ∃ self,
    run [render (JObj fields)] = Some self ∧
    get self = Some (JObj fields) ∧
    stack self = [(0, None)] ∧ in_string self = false ∧
    ∀ chunks, join chunks = render (JObj fields) → run chunks = Some self.
Proof.
  intros Hunique. inversion Hunique as [|? Hnodup Hvalues]; subst.
  assert (parses_fields fields) as Hfields.
  { apply parses_fields_of, Forall_forall. intros kv _. apply parses_value_all. }
  destruct (Hfields [[]] EmptyString 0 [] 0 [] wf_init eq_refl)
    as (hp' & entries & Hscan & Hd & Hlen & Hagree & Hentries); [done|done|].
  set (self := idle hp' EmptyString 0 [(0, None)]).
  assert (run [render (JObj fields)] = Some self) as Hrun.
  { cbn [run foldl mbind option_bind]. rewrite consume_scan by done.
    cbn [render scan]. change (step lbrace init) with (Some init).
    cbn [mbind option_bind]. rewrite scan_app.
    change init with (idle [[]] EmptyString 0 ([] ++ [(0, None)])).
    rewrite Hscan. done. }
  exists self. split_and!; [done| |done|done|].
  - destruct (run_wf _ _ Hrun) as [Hwf _].
    destruct (wf_get _ Hwf) as [fields' Hget]. rewrite Hget. do 2 f_equal.
    destruct (read_entries hp' entries fields) as [fuel Hfuel].
    { eapply Forall2_impl; [done|]. by intros e f (? & _ & ?). }
    assert (read (S fuel) hp' (VObj 0) = Some (JObj fields)) as Hread.
    { cbn [read]. rewrite Hd. cbn [mbind option_bind app]. by rewrite Hfuel. }
    unfold get in Hget. cbn [heap partial_json self idle] in Hget.
    pose proof (read_mono _ _ (S fuel `max` length hp') _ _ Hread) as H1.
    pose proof (read_mono _ _ (S fuel `max` length hp') _ _ Hget) as H2.
    rewrite H1 in H2 by lia. specialize (H2 ltac:(lia)). by injection H2.
  - intros chunks Hjoin. change chunks with ([] ++ chunks).
    by rewrite run_join, Hjoin.
Qed.

Example render_foo_bar : render (JObj [("foo", JStr "bar")]) = py "{'foo': 'bar'}".
Proof. vm_compute. reflexivity. Qed.

Example render_sample_tree :
  render (JObj sample_tree) = py "{'a': 'x\'y\\z', 'o': {'i': 'v', 'e': {}}, '': ''}".
Proof. vm_compute. reflexivity. Qed.

Lemma well_formed_text_parses_witness :
  keys_unique (JObj sample_tree) ∧
  ∃ self,
    run [render (JObj sample_tree)] = Some self ∧
    get self = Some (JObj sample_tree) ∧
    stack self = [(0, None)] ∧ in_string self = false ∧
    ∀ chunks, join chunks = render (JObj sample_tree) → run chunks = Some self.
Proof.
  assert (keys_unique (JObj sample_tree)) as Hunique.
  { assert (∀ l : list string, bool_decide (NoDup l) = true → NoDup l) as Hdec.
    { intros l. apply bool_decide_eq_true_1. }
    unfold sample_tree.
    repeat match goal with
           | |- keys_unique (JStr _) => apply keys_unique_str
           | |- keys_unique (JObj _) => apply keys_unique_obj; [by apply Hdec|]
           | |- Forall _ [] => apply Forall_nil_2
           | |- Forall _ (_ :: _) => apply Forall_cons_2; cbn [snd]
           end. }
  split; [done|]. by apply (well_formed_text_parses sample_tree).
Defined.

(** ** Further properties: the callers in main.py *)










